(** * X-Ray: trace builder (xray-sdk) and ingestion/query routes (xray-api)

    A shallow embedding of [xray-sdk/src/index.ts] (classes [Run] and [Step],
    the sampling policy) and of the route handlers of the API
    ([POST /runs], [GET /runs/:id], [POST /runs/query]), with the
    properties the specification states about them.

    Conventions of the embedding:
    - a JavaScript [number] and a PostgreSQL [float8] are IEEE 754 binary64
      values ([JsNum], the [spec_float] of the standard library at
      precision 53); products, quotients and differences are rounded to
      nearest, ties to even, as the hardware does it; a number inside a
      JSON value that the routes only pass on is the rational it denotes;
    - candidate counts ([candidatesIn], [candidatesOut], the [INTEGER]
      columns) are integers ([Z]);
    - [new Date()] and [uuidV4()] are read from the environment: the value
      they return is an explicit argument of the operation that calls them;
    - a value of TypeScript type [any] on the SDK side is an element of an
      abstract type [Value] with decidable equality: equality on [Value] is
      JavaScript's SameValueZero, so two distinct objects are two distinct
      elements even when their contents agree;
    - what the store does beyond the constraints modelled here (the check
      of each value against its column type, the wording of its messages,
      a connection that is lost, the spelling of a uuid, the order of the
      rows of a [SELECT] without [ORDER BY]) is a parameter of the
      routes. *)

From Stdlib Require Import ZArith QArith Qround Lia String.
From Stdlib Require Import Floats.SpecFloat.
From stdpp Require Import base option list gmap strings sorting.

Local Open Scope Z_scope.

(** ** JavaScript numbers *)

Module JsNumber.

(** Binary64: 53 bits of precision, exponents below 1024. *)
Definition prec : Z := 53.
Definition emax : Z := 1024.

Definition JsNum : Type := spec_float.

Definition NaN : JsNum := S754_nan.
Definition PosInf : JsNum := S754_infinity false.
Definition NegInf : JsNum := S754_infinity true.

(** The double nearest to the integer [z]; it is [z] itself up to
    [2^53] in absolute value. *)
Definition of_Z (z : Z) : JsNum := binary_normalize prec emax z 0 false.

(** [array.length] as a number. *)
Definition of_length {A} (l : list A) : JsNum := of_Z (Z.of_nat (length l)).

(** [x * y], [x / y] and [x - y]: the exact result rounded to a double. *)
Definition mul (x y : JsNum) : JsNum := SFmul prec emax x y.
Definition div (x y : JsNum) : JsNum := SFdiv prec emax x y.
Definition sub (x y : JsNum) : JsNum := SFsub prec emax x y.

(** The literal written [n/d] in decimal notation, for integers [n] and
    [d] that are doubles: the double nearest to the quotient. [decimal 1
    100] is the literal [0.01]. *)
Definition decimal (n d : Z) : JsNum := div (of_Z n) (of_Z d).

(** The rational a finite number stands for; [0] for the two zeros. *)
Definition value (x : JsNum) : Q :=
  match x with
  | S754_finite s m e =>
      let n := if s then Z.neg m else Z.pos m in
      match e with
      | Z.neg p => n # 2 ^ p
      | _ => inject_Z (n * 2 ^ e)
      end
  | _ => 0
  end.

(** A number that is neither [NaN] nor infinite. *)
Definition is_number (x : JsNum) : bool :=
  match x with
  | S754_zero _ | S754_finite _ _ _ => true
  | _ => false
  end.

(** The double that is the integer [z], with 53 bits of mantissa; [s] is
    the sign of the result when [z] is zero. An integer that is no double
    is left as it is: a rounding function of a double returns none. *)
Definition integer (s : bool) (z : Z) : JsNum :=
  match z with
  | Z0 => S754_zero s
  | _ =>
      let a := Z.abs z in
      let k := prec - (Z.log2 a + 1) in
      let m := Z.shiftl a k in
      if Z.shiftl m (- k) =? a
      then S754_finite (z <? 0) (Z.to_pos m) (- k)
      else S754_finite (z <? 0) (Z.to_pos a) 0
  end.

(** [Math.ceil(x)]; a number in [(-1, 0)] goes to [-0]. *)
Definition ceil (x : JsNum) : JsNum :=
  match x with
  | S754_finite s _ _ => integer s (Qceiling (value x))
  | _ => x
  end.

(** [x < y] on numbers, [false] as soon as one side is [NaN]. *)
Definition ltb (x y : JsNum) : bool :=
  match x, y with
  | S754_nan, _ | _, S754_nan => false
  | S754_infinity sx, S754_infinity sy => sx && negb sy
  | S754_infinity sx, _ => sx
  | _, S754_infinity sy => negb sy
  | _, _ => match (value x ?= value y)%Q with Lt => true | _ => false end
  end.

(** [Math.max(x, y)]; [+0] is larger than [-0]. *)
Definition max (x y : JsNum) : JsNum :=
  match x, y with
  | S754_nan, _ | _, S754_nan => NaN
  | S754_zero true, S754_zero false => y
  | _, _ => if ltb x y then y else x
  end.

(** Integers extended with the two infinities, the range of the
    abstract operation ToIntegerOrInfinity. *)
Inductive IntOrInf : Type :=
| Int (z : Z)
| PlusInfinity
| MinusInfinity.

Definition truncate (q : Q) : Z :=
  match (q ?= 0)%Q with
  | Lt => Qceiling q
  | _ => Qfloor q
  end.

Definition ToIntegerOrInfinity (x : JsNum) : IntOrInf :=
  match x with
  | S754_nan | S754_zero _ => Int 0
  | S754_infinity false => PlusInfinity
  | S754_infinity true => MinusInfinity
  | S754_finite _ _ _ => Int (truncate (value x))
  end.

(** [l.slice(0, end)]: the elements at positions [0 .. final-1], where
    [final] is the end argument made relative to the length and clamped. *)
Definition slice0 {A} (l : list A) (end_ : JsNum) : list A :=
  let len := Z.of_nat (length l) in
  let final :=
    match ToIntegerOrInfinity end_ with
    | MinusInfinity => 0
    | Int rel => if rel <? 0 then Z.max (len + rel) 0 else Z.min rel len
    | PlusInfinity => len
    end in
  take (Z.to_nat final) l.

End JsNumber.

Import JsNumber.

(** ** The trace builder *)

Module SDK.

Record SamplingConfig : Type := mkSamplingConfig {
  keepAllOutputs : bool;
  keepThresholdCandidates : JsNum;
  sampleRate : JsNum
}.

(** The default of the [XRaySDK] constructor. *)
Definition default_sampling : SamplingConfig :=
  {| keepAllOutputs := true;
     keepThresholdCandidates := of_Z 10;
     sampleRate := decimal 1 100 |}.

Inductive StepType : Type := llm | api | filter_step | rank | transform.

Inductive CandidateStatus : Type := accepted | rejected | filtered_out.

Inductive RunStatus : Type := running | completed | failed.

#[global] Instance CandidateStatus_eq_dec : EqDecision CandidateStatus.
Proof. solve_decision. Defined.

#[global] Instance RunStatus_eq_dec : EqDecision RunStatus.
Proof. solve_decision. Defined.

Section Builder.

Context {Value : Type} `{EqDecision Value}.
(** A string seen as a value of type [any]. *)
Context (VString : string → Value).

Record FilterData : Type := mkFilterData {
  filterName : string;
  filterType : string;
  parameters : option (gmap string Value);
  candidateBefore : Z;
  candidatesAfter : Z;
  eliminationRate : JsNum
}.

Record CandidateData : Type := mkCandidateData {
  data : Value;
  status : CandidateStatus;
  score : option JsNum;
  rejectionReason : option string;
  rejectionFilter : option string
}.

Record Step : Type := mkStep {
  step_id : string;
  runId : string;
  stepName : string;
  stepType : StepType;
  stepIndex : nat;
  step_startedAt : Z;
  step_completedAt : option Z;
  step_input : option Value;
  step_output : option Value;
  candidatesIn : option Z;
  candidatesOut : option Z;
  candidates : list CandidateData;
  reasoning : option string;
  filtersApplied : list FilterData;
  step_metadata : option (gmap string Value);
  step_sampling : SamplingConfig
}.

(** [new Step(runId, stepName, stepType, stepIndex, sampling)] *)
Definition new_Step (uuid : string) (now : Z) (run_id name : string)
    (ty : StepType) (index : nat) (sampling : SamplingConfig) : Step :=
  {| step_id := uuid; runId := run_id; stepName := name; stepType := ty;
     stepIndex := index; step_startedAt := now; step_completedAt := None;
     step_input := None; step_output := None;
     candidatesIn := None; candidatesOut := None; candidates := [];
     reasoning := None; filtersApplied := []; step_metadata := None;
     step_sampling := sampling |}.

(** The object literal [{ data: c, status }]. *)
Definition tagged (st : CandidateStatus) (c : Value) : CandidateData :=
  {| data := c; status := st; score := None;
     rejectionReason := None; rejectionFilter := None |}.

(** The object literal [{ data: c, status, rejectionFilter }]. *)
Definition tagged_by (st : CandidateStatus) (f : option string) (c : Value)
    : CandidateData :=
  {| data := c; status := st; score := None;
     rejectionReason := None; rejectionFilter := f |}.

Definition sampleCandidates (sampling : SamplingConfig) (cs : list Value)
    (st : CandidateStatus) (rejection_filter : option string)
    : list CandidateData :=
  if bool_decide (st = accepted) && keepAllOutputs sampling then
    tagged st <$> cs
  else if bool_decide (st = rejected) then
    let sampleSize := ceil (mul (of_length cs) (sampleRate sampling)) in
    let sampled := slice0 cs (max sampleSize (of_Z 5)) in
    tagged_by st rejection_filter <$> sampled
  else
    tagged st <$> cs.

(** *** Operations of [Step]

    Each method mutates [this] and returns it; here it maps the step before
    the call to the step after it. *)

Definition with_io (i o : option Value) (done : option Z) (s : Step) : Step :=
  {| step_id := step_id s; runId := runId s; stepName := stepName s;
     stepType := stepType s; stepIndex := stepIndex s;
     step_startedAt := step_startedAt s; step_completedAt := done;
     step_input := i; step_output := o;
     candidatesIn := candidatesIn s; candidatesOut := candidatesOut s;
     candidates := candidates s; reasoning := reasoning s;
     filtersApplied := filtersApplied s; step_metadata := step_metadata s;
     step_sampling := step_sampling s |}.

Definition with_counts (cin cout : option Z) (s : Step) : Step :=
  {| step_id := step_id s; runId := runId s; stepName := stepName s;
     stepType := stepType s; stepIndex := stepIndex s;
     step_startedAt := step_startedAt s;
     step_completedAt := step_completedAt s;
     step_input := step_input s; step_output := step_output s;
     candidatesIn := cin; candidatesOut := cout;
     candidates := candidates s; reasoning := reasoning s;
     filtersApplied := filtersApplied s; step_metadata := step_metadata s;
     step_sampling := step_sampling s |}.

(** [this.candidates.push(...more)] *)
Definition push_candidates (more : list CandidateData) (s : Step) : Step :=
  {| step_id := step_id s; runId := runId s; stepName := stepName s;
     stepType := stepType s; stepIndex := stepIndex s;
     step_startedAt := step_startedAt s;
     step_completedAt := step_completedAt s;
     step_input := step_input s; step_output := step_output s;
     candidatesIn := candidatesIn s; candidatesOut := candidatesOut s;
     candidates := candidates s ++ more; reasoning := reasoning s;
     filtersApplied := filtersApplied s; step_metadata := step_metadata s;
     step_sampling := step_sampling s |}.

(** [this.filtersApplied.push(f)] *)
Definition push_filter (f : FilterData) (s : Step) : Step :=
  {| step_id := step_id s; runId := runId s; stepName := stepName s;
     stepType := stepType s; stepIndex := stepIndex s;
     step_startedAt := step_startedAt s;
     step_completedAt := step_completedAt s;
     step_input := step_input s; step_output := step_output s;
     candidatesIn := candidatesIn s; candidatesOut := candidatesOut s;
     candidates := candidates s; reasoning := reasoning s;
     filtersApplied := filtersApplied s ++ [f];
     step_metadata := step_metadata s;
     step_sampling := step_sampling s |}.

Definition with_decision (r : option string) (ty : StepType) (s : Step)
    : Step :=
  {| step_id := step_id s; runId := runId s; stepName := stepName s;
     stepType := ty; stepIndex := stepIndex s;
     step_startedAt := step_startedAt s;
     step_completedAt := step_completedAt s;
     step_input := step_input s; step_output := step_output s;
     candidatesIn := candidatesIn s; candidatesOut := candidatesOut s;
     candidates := candidates s; reasoning := r;
     filtersApplied := filtersApplied s; step_metadata := step_metadata s;
     step_sampling := step_sampling s |}.

Definition with_metadata (m : option (gmap string Value)) (s : Step) : Step :=
  {| step_id := step_id s; runId := runId s; stepName := stepName s;
     stepType := stepType s; stepIndex := stepIndex s;
     step_startedAt := step_startedAt s;
     step_completedAt := step_completedAt s;
     step_input := step_input s; step_output := step_output s;
     candidatesIn := candidatesIn s; candidatesOut := candidatesOut s;
     candidates := candidates s; reasoning := reasoning s;
     filtersApplied := filtersApplied s; step_metadata := m;
     step_sampling := step_sampling s |}.

Definition recordInput (input : Value) (s : Step) : Step :=
  with_io (Some input) (step_output s) (step_completedAt s) s.

Definition recordOutput (now : Z) (output : Value) (s : Step) : Step :=
  with_io (step_input s) (Some output) (Some now) s.

Definition recordCandidates (cs : list Value) (st : CandidateStatus)
    (s : Step) : Step :=
  let sampled := sampleCandidates (step_sampling s) cs st None in
  let s := push_candidates sampled s in
  if bool_decide (st = accepted)
  then with_counts (candidatesIn s) (Some (Z.of_nat (length cs))) s
  else s.

(** [candidatesOut.includes(c)] *)
Definition includes (l : list Value) (c : Value) : bool := bool_decide (c ∈ l).

(** [candidatesIn.filter((c) => !candidatesOut.includes(c))] *)
Definition rejected_of (before after : list Value) : list Value :=
  List.filter (λ c, negb (includes after c)) before.

Definition recordFiltering (before after : list Value)
    (filter_name filter_type : string)
    (params : option (gmap string Value)) (s : Step) : Step :=
  let s := with_counts (Some (Z.of_nat (length before)))
                       (Some (Z.of_nat (length after))) s in
  let rate := sub (of_Z 1) (div (of_length after) (of_length before)) in
  let s := push_filter
             {| filterName := filter_name; filterType := filter_type;
                parameters := params;
                candidateBefore := Z.of_nat (length before);
                candidatesAfter := Z.of_nat (length after);
                eliminationRate := rate |} s in
  let rejected_sampled :=
    sampleCandidates (step_sampling s) (rejected_of before after)
                     rejected (Some filter_name) in
  let s := push_candidates rejected_sampled s in
  let accepted_sampled :=
    sampleCandidates (step_sampling s) after accepted None in
  push_candidates accepted_sampled s.

Definition recordLLMDecision (r : string) (cout : option Z) (s : Step)
    : Step :=
  let s := with_decision (Some r) llm s in
  match cout with
  | Some n => with_counts (candidatesIn s) (Some n) s
  | None => s
  end.

(** [{ ...this.metadata, ...metadata }]: the keys of [m] win. *)
Definition setMetadata (m : gmap string Value) (s : Step) : Step :=
  with_metadata (Some (m ∪ default ∅ (step_metadata s))) s.

(** The recording operations as data, to speak about sequences of calls. *)
Inductive StepOp : Type :=
| RecordInput (input : Value)
| RecordOutput (now : Z) (output : Value)
| RecordCandidates (cs : list Value) (st : CandidateStatus)
| RecordFiltering (before after : list Value) (filter_name filter_type : string)
                  (params : option (gmap string Value))
| RecordLLMDecision (r : string) (cout : option Z)
| SetMetadata (m : gmap string Value).

Definition apply_op (s : Step) (op : StepOp) : Step :=
  match op with
  | RecordInput v => recordInput v s
  | RecordOutput now v => recordOutput now v s
  | RecordCandidates cs st => recordCandidates cs st s
  | RecordFiltering b a n t p => recordFiltering b a n t p s
  | RecordLLMDecision r c => recordLLMDecision r c s
  | SetMetadata m => setMetadata m s
  end.

Definition apply_ops (s : Step) (ops : list StepOp) : Step :=
  foldl apply_op s ops.

(** One call of [recordFiltering]. *)
Record FilterCall : Type := mkFilterCall {
  call_before : list Value;
  call_after : list Value;
  call_name : string;
  call_type : string;
  call_params : option (gmap string Value)
}.

Definition apply_filter_call (s : Step) (c : FilterCall) : Step :=
  recordFiltering (call_before c) (call_after c) (call_name c) (call_type c)
                  (call_params c) s.

(** The [FilterData] a call of [recordFiltering] pushes. *)
Definition filter_record (c : FilterCall) : FilterData :=
  {| filterName := call_name c; filterType := call_type c;
     parameters := call_params c;
     candidateBefore := Z.of_nat (length (call_before c));
     candidatesAfter := Z.of_nat (length (call_after c));
     eliminationRate :=
       sub (of_Z 1) (div (of_length (call_after c))
                         (of_length (call_before c))) |}.

(** [Step.toJSON()] *)
Record StepJSON : Type := mkStepJSON {
  json_id : string;
  json_runId : string;
  json_stepName : string;
  json_stepType : StepType;
  json_stepIndex : nat;
  json_startedAt : Z;
  json_completedAt : option Z;
  json_durationMs : option Z;
  json_input : option Value;
  json_output : option Value;
  json_candidatesIn : option Z;
  json_candidatesOut : option Z;
  json_candidates : list CandidateData;
  json_reasoning : option string;
  json_filtersApplied : list FilterData;
  json_metadata : option (gmap string Value)
}.

Definition Step_toJSON (s : Step) : StepJSON :=
  {| json_id := step_id s; json_runId := runId s;
     json_stepName := stepName s; json_stepType := stepType s;
     json_stepIndex := stepIndex s; json_startedAt := step_startedAt s;
     json_completedAt := step_completedAt s;
     json_durationMs :=
       match step_completedAt s with
       | Some done => Some (done - step_startedAt s)
       | None => None
       end;
     json_input := step_input s; json_output := step_output s;
     json_candidatesIn := candidatesIn s;
     json_candidatesOut := candidatesOut s;
     json_candidates := candidates s; json_reasoning := reasoning s;
     json_filtersApplied := filtersApplied s;
     json_metadata := step_metadata s |}.

(** *** [Run] *)

Record Run : Type := mkRun {
  run_id : string;
  pipelineName : string;
  run_input : Value;
  run_output : option Value;
  steps : list Step;
  run_startedAt : Z;
  run_completedAt : option Z;
  run_status : RunStatus;
  apiUrl : string;
  run_sampling : SamplingConfig;
  run_metadata : option (gmap string Value)
}.

(** [new Run(pipelineName, input, apiUrl, sampling, metadata)] *)
Definition new_Run (uuid : string) (now : Z) (name : string) (input : Value)
    (url : string) (sampling : SamplingConfig)
    (metadata : option (gmap string Value)) : Run :=
  {| run_id := uuid; pipelineName := name; run_input := input;
     run_output := None; steps := []; run_startedAt := now;
     run_completedAt := None; run_status := running; apiUrl := url;
     run_sampling := sampling; run_metadata := metadata |}.

Definition with_steps (l : list Step) (r : Run) : Run :=
  {| run_id := run_id r; pipelineName := pipelineName r;
     run_input := run_input r; run_output := run_output r; steps := l;
     run_startedAt := run_startedAt r;
     run_completedAt := run_completedAt r; run_status := run_status r;
     apiUrl := apiUrl r; run_sampling := run_sampling r;
     run_metadata := run_metadata r |}.

(** The step handle [addStep] returns aliases the element it pushed on
    [this.steps]; the handle is the position of the step, and an operation
    called on the handle updates the run in place. *)
Definition addStep (uuid : string) (now : Z) (name : string) (ty : StepType)
    (r : Run) : nat * Run :=
  let step := new_Step uuid now (run_id r) name ty (length (steps r))
                       (run_sampling r) in
  (length (steps r), with_steps (steps r ++ [step]) r).

Definition on_step (handle : nat) (op : StepOp) (r : Run) : Run :=
  with_steps (alter (λ s, apply_op s op) handle (steps r)) r.

(** The three assignments at the head of [complete]. *)
Definition mark_completed (now : Z) (output : Value) (r : Run) : Run :=
  {| run_id := run_id r; pipelineName := pipelineName r;
     run_input := run_input r; run_output := Some output; steps := steps r;
     run_startedAt := run_startedAt r; run_completedAt := Some now;
     run_status := completed; apiUrl := apiUrl r;
     run_sampling := run_sampling r; run_metadata := run_metadata r |}.

(** A JavaScript [Error]. *)
Record Error : Type := mkError { message : string }.

(** The three assignments at the head of [fail]. *)
Definition mark_failed (now : Z) (error : Error) (r : Run) : Run :=
  {| run_id := run_id r; pipelineName := pipelineName r;
     run_input := run_input r; run_output := run_output r; steps := steps r;
     run_startedAt := run_startedAt r; run_completedAt := Some now;
     run_status := failed; apiUrl := apiUrl r;
     run_sampling := run_sampling r;
     run_metadata :=
       Some (<["error" := VString (message error)]>
               (default ∅ (run_metadata r))) |}.

(** [Run.toJSON()], also the payload object [send] builds. *)
Record RunJSON : Type := mkRunJSON {
  payload_id : string;
  payload_pipelineName : string;
  payload_status : RunStatus;
  payload_startedAt : Z;
  payload_completedAt : option Z;
  payload_input : Value;
  payload_output : option Value;
  payload_metadata : option (gmap string Value);
  payload_steps : list StepJSON
}.

Definition Run_toJSON (r : Run) : RunJSON :=
  {| payload_id := run_id r; payload_pipelineName := pipelineName r;
     payload_status := run_status r; payload_startedAt := run_startedAt r;
     payload_completedAt := run_completedAt r;
     payload_input := run_input r; payload_output := run_output r;
     payload_metadata := run_metadata r;
     payload_steps := Step_toJSON <$> steps r |}.

(** *** Transport

    What the pipeline process can observe of a call, in order. *)
Inductive Event : Type :=
| FetchPost (url body : string)
| ConsoleError (label detail : string).

(** A computation that emits events and returns or throws. *)
Definition Eff (A : Type) : Type := list Event * (Error + A).

Definition throw {A} (e : Error) : Eff A := ([], inl e).
Definition emit (ev : Event) : Eff unit := ([ev], inr tt).

#[global] Instance Eff_ret : MRet Eff := λ A a, ([], inr a).

#[global] Instance Eff_bind : MBind Eff := λ A B k m,
  match m with
  | (evs, inl e) => (evs, inl e)
  | (evs, inr a) => let '(evs', r) := k a in (evs ++ evs', r)
  end.

(** [try { m } catch (error) { handler(error) }] *)
Definition try_catch {A} (m : Eff A) (handler : Error → Eff A) : Eff A :=
  match m with
  | (evs, inl e) => let '(evs', r) := handler e in (evs ++ evs', r)
  | (evs, inr a) => (evs, inr a)
  end.

(** How the promise returned by [fetch] settles. *)
Inductive FetchOutcome : Type :=
| Rejects (err : Error)
| Resolves (http_status : Z)
| Pending.

(** How an awaited call resumes its caller. *)
Inductive Completion : Type :=
| Returns
| Throws (e : Error)
| NeverResumes.

(** The environment of [send]: [JSON.stringify] on the payload (it throws
    on a cyclic value or a BigInt) and the network behind [fetch]. *)
Context (stringify : RunJSON → Error + string).
Context (network : string → string → FetchOutcome).

(** A promise that is dispatched and not awaited: the reaction installed
    with [.catch] runs once the promise has settled, after the caller of
    the dispatching function went on. *)
Record Detached : Type := mkDetached {
  settles : FetchOutcome;
  on_reject : Error → list Event
}.

Definition settle (d : Detached) : list Event :=
  match settles d with
  | Rejects err => on_reject d err
  | Resolves _ => []
  | Pending => []
  end.

(** The body of [send]: it returns the detached promise, if one was
    created. *)
Definition send (r : Run) : Eff (option Detached) :=
  try_catch
    (let payload := Run_toJSON r in
     body ← match stringify payload with
            | inl e => throw e
            | inr text => mret text
            end;
     let url := apiUrl r +:+ "/runs" in
     emit (FetchPost url body);;
     mret (Some {| settles := network url body;
                   on_reject := λ err,
                     [ConsoleError "FAILED TO SEND TRACE" (message err)] |}))
    (λ error,
     emit (ConsoleError "Error sending trace" (message error));;
     mret None).

(** What a call of [await run.complete(output)] or [await run.fail(error)]
    amounts to: the run after the call, the events before the caller
    resumes, how it resumes, and the events of the detached delivery. *)
Record Outcome : Type := mkOutcome {
  run_after : Run;
  before_resume : list Event;
  completion : Completion;
  after_resume : list Event
}.

Definition awaited (r : Run) (m : Eff (option Detached)) : Outcome :=
  match m with
  | (evs, inl e) =>
      {| run_after := r; before_resume := evs; completion := Throws e;
         after_resume := [] |}
  | (evs, inr d) =>
      {| run_after := r; before_resume := evs; completion := Returns;
         after_resume := from_option settle [] d |}
  end.

Definition complete (now : Z) (output : Value) (r : Run) : Outcome :=
  let r := mark_completed now output r in
  awaited r (send r).

Definition fail (now : Z) (error : Error) (r : Run) : Outcome :=
  let r := mark_failed now error r in
  awaited r (send r).

(** The calls a pipeline can make on a run. *)
Inductive RunOp : Type :=
| AddStep (uuid : string) (now : Z) (name : string) (ty : StepType)
| OnStep (handle : nat) (op : StepOp)
| Complete (now : Z) (output : Value)
| Fail (now : Z) (error : Error).

Definition run_op (r : Run) (op : RunOp) : Run :=
  match op with
  | AddStep uuid now name ty => (addStep uuid now name ty r).2
  | OnStep h o => on_step h o r
  | Complete now output => run_after (complete now output r)
  | Fail now error => run_after (fail now error r)
  end.

Definition run_ops (r : Run) (ops : list RunOp) : Run := foldl run_op r ops.

(** *** Notions the properties are stated with *)

(** The number of rejected candidates kept out of [n] when the product
    [n * sampleRate] came out as the double [p]:
    [min(n, max(ceil(p), 5))]; all [n] for [+Infinity], none for [NaN]. *)
Definition rejected_quota (n : nat) (p : JsNum) : nat :=
  match p with
  | S754_nan => 0
  | S754_infinity false => n
  | S754_infinity true => Nat.min n 5
  | _ => Z.to_nat (Z.min (Z.of_nat n) (Z.max (Qceiling (value p)) 5))
  end.

(** The size read off the specification, [min(n, max(ceil(n × q), 5))]
    with the product formed in exact arithmetic at the rate [q]. *)
Definition stated_quota (n : nat) (q : Q) : nat :=
  Z.to_nat (Z.min (Z.of_nat n)
                  (Z.max (Qceiling (inject_Z (Z.of_nat n) * q)) 5)).

(** [candidatesOut] does not exceed [candidatesIn] when both are present. *)
Definition counts_ok (s : Step) : Prop :=
  match candidatesIn s, candidatesOut s with
  | Some i, Some o => o ≤ i
  | _, _ => True
  end.

(** The count an operation writes to [candidatesOut], if it writes one. *)
Definition written_out (op : StepOp) : option Z :=
  match op with
  | RecordCandidates cs accepted => Some (Z.of_nat (length cs))
  | RecordLLMDecision _ (Some n) => Some n
  | _ => None
  end.

(** The caller hands [op] counts that agree with the step it is called
    on: a filtering whose after-sequence is no longer than its
    before-sequence, an output count within the recorded input count. *)
Definition consistent_op (s : Step) (op : StepOp) : bool :=
  match op with
  | RecordFiltering before after _ _ _ =>
      bool_decide (length after ≤ length before)%nat
  | _ =>
      match written_out op, candidatesIn s with
      | Some o, Some i => bool_decide (o ≤ i)
      | _, _ => true
      end
  end.

Fixpoint consistent (s : Step) (ops : list StepOp) : bool :=
  match ops with
  | [] => true
  | op :: ops' => consistent_op s op && consistent (apply_op s op) ops'
  end.

(** Some [console.error] line shows up during or after the call. *)
Definition logged (o : Outcome) : Prop :=
  ∃ label detail,
    ConsoleError label detail ∈ before_resume o ++ after_resume o.

(** How a call that hands the run [run_after o] to the transport shows
    to the pipeline: it returns; a payload that does not serialize leaves
    one [console.error] line before the caller resumes and nothing is
    sent; otherwise the request is dispatched, the caller resumes, and
    only a rejected request leaves a [console.error] line, later. *)
Definition delivery_isolated (o : Outcome) : Prop :=
  completion o = Returns
  ∧ match stringify (Run_toJSON (run_after o)) with
    | inl e =>
        before_resume o = [ConsoleError "Error sending trace" (message e)]
        ∧ after_resume o = []
    | inr body =>
        let url := apiUrl (run_after o) +:+ "/runs" in
        before_resume o = [FetchPost url body]
        ∧ after_resume o =
            match network url body with
            | Rejects err =>
                [ConsoleError "FAILED TO SEND TRACE" (message err)]
            | Resolves _ | Pending => []
            end
    end.

(** The delivery failed: the request was rejected, did not settle, or was
    answered outside the 2xx range. *)
Definition delivery_failed (f : FetchOutcome) : Prop :=
  match f with
  | Rejects _ => True
  | Pending => True
  | Resolves code => ¬ (200 ≤ code < 300)
  end.

End Builder.

(** Values for the examples: an object is known by its address, so two
    objects at different addresses differ whatever they hold. *)
Inductive SampleValue : Type :=
| Ref (address : nat)
| Text (s : string).

#[global] Instance SampleValue_eq_dec : EqDecision SampleValue.
Proof. solve_decision. Defined.

Definition sample_run : Run (Value := SampleValue) :=
  new_Run "run-1" 1000 "competitor_selection" (Ref 0)
          "http://localhost:3000/api" default_sampling None.

Definition sample_step : Step (Value := SampleValue) :=
  new_Step "step-1" 1000 "run-1" "filter_price" filter_step 0
           default_sampling.

(** An environment in which every payload serializes and the ingestion
    service answers with the given status code. *)
Definition serializes : RunJSON (Value := SampleValue) → Error + string :=
  λ _, inr "{}".

Definition answers (code : Z) : string → string → FetchOutcome :=
  λ _ _, Resolves code.

(** A sequence of calls with counts that agree. *)
Definition consistent_calls : list (StepOp (Value := SampleValue)) :=
  [RecordFiltering [Ref 1; Ref 2; Ref 3] [Ref 1; Ref 3] "price_range" "range"
                   None;
   RecordLLMDecision "two survive" (Some 2);
   RecordCandidates [Ref 1] accepted].

(** *** The entry point [XRaySDK] *)

Record RunConfig : Type := mkRunConfig {
  config_apiUrl : option string;
  config_sampling : option SamplingConfig
}.

Definition default_apiUrl : string := "http://localhost:3000/api".

Record XRaySDK : Type := mkXRaySDK {
  sdk_apiUrl : string;
  sdk_sampling : SamplingConfig
}.

(** [new XRaySDK(config)]: [config.apiUrl || default] takes the default for
    a missing and for an empty URL; a sampling object is always truthy. *)
Definition new_XRaySDK (config : RunConfig) : XRaySDK :=
  {| sdk_apiUrl :=
       match config_apiUrl config with
       | Some url => if String.eqb url "" then default_apiUrl else url
       | None => default_apiUrl
       end;
     sdk_sampling := default default_sampling (config_sampling config) |}.

Definition startRun {Value : Type} (sdk : XRaySDK) (uuid : string) (now : Z)
    (name : string) (input : Value)
    (metadata : option (gmap string Value)) : Run :=
  new_Run uuid now name input (sdk_apiUrl sdk) (sdk_sampling sdk) metadata.

(** *** Notions for sequences of calls *)

Definition is_filtering {Value : Type} (op : StepOp (Value := Value)) : bool :=
  match op with
  | RecordFiltering _ _ _ _ _ => true
  | _ => false
  end.

Definition is_decision {Value : Type} (op : StepOp (Value := Value)) : bool :=
  match op with
  | RecordLLMDecision _ _ => true
  | _ => false
  end.

(** The time of the last [recordOutput] among the calls, if there is one. *)
Definition last_output {Value : Type} (ops : list (StepOp (Value := Value)))
    : option Z :=
  foldl (λ acc op, match op with
                   | RecordOutput now _ => Some now
                   | _ => acc
                   end) None ops.

(** The fields a recording operation never writes. *)
Definition same_identity {Value : Type} (s s' : Step (Value := Value))
    : Prop :=
  step_id s' = step_id s ∧ runId s' = runId s ∧ stepName s' = stepName s
  ∧ stepIndex s' = stepIndex s ∧ step_startedAt s' = step_startedAt s
  ∧ step_sampling s' = step_sampling s.

(** The steps of a run are numbered by position, name the run as their
    owner and sample as the run does. *)
Definition well_numbered {Value : Type} (r : Run (Value := Value)) : Prop :=
  stepIndex <$> steps r = seq 0 (length (steps r))
  ∧ Forall (λ s, runId s = run_id r ∧ step_sampling s = run_sampling r)
           (steps r).

Definition is_addStep {Value : Type} (op : RunOp (Value := Value)) : bool :=
  match op with
  | AddStep _ _ _ _ => true
  | _ => false
  end.

End SDK.

(** ** The ingestion and query routes *)

Module API.

(** A parsed JSON value, for the fields the routes treat as opaque; a
    number is given by the rational it denotes. *)
#[warnings="-register-all"] Inductive Json : Type :=
| JNull
| JBool (b : bool)
| JNum (q : Q)
| JStr (s : string)
| JArr (items : list Json)
| JObj (fields : list (string * Json)).

(** JavaScript truthiness of a parsed JSON value. *)
Definition truthy (v : Json) : bool :=
  match v with
  | JNull => false
  | JBool b => b
  | JNum q => negb (Qeq_bool q 0)
  | JStr s => negb (String.eqb s "")
  | JArr _ | JObj _ => true
  end.

(** [x ? JSON.stringify(x) : null], as the JSONB value the store reads. *)
Definition stringify_if_truthy (x : option Json) : option Json :=
  match x with
  | Some v => if truthy v then Some v else None
  | None => None
  end.

(** *** The request body of [POST /runs] (types [Run], [Step],
    [Candidate]); a field the body lacks is [None]. *)

Record Candidate : Type := mkCandidate {
  data : option Json;
  status : option string;
  score : option Q;
  reason : option string;
  rejectionReason : option string;
  rejectionFilter : option string
}.

Record Step : Type := mkStep {
  step_id : option string;
  stepName : option string;
  stepType : option string;
  stepIndex : option Z;
  step_startedAt : option Z;
  step_completedAt : option Z;
  durationMs : option Z;
  step_input : option Json;
  step_output : option Json;
  candidatesIn : option Z;
  candidatesOut : option Z;
  reasoning : option string;
  filtersApplied : option Json;
  step_metadata : option Json;
  candidates : option (list Candidate)
}.

Record Run : Type := mkRun {
  id : option string;
  pipelineName : option string;
  run_status : option string;
  startedAt : option Z;
  completedAt : option Z;
  input : option Json;
  output : option Json;
  metadata : option Json;
  steps : option (list Step)
}.

(** *** The persistent store: the three tables of [schema.sql]; a column
    that is SQL [NULL] is [None]. *)

Record RunRow : Type := mkRunRow {
  r_id : option string;
  r_pipeline_name : option string;
  r_status : option string;
  r_started_at : option Z;
  r_completed_at : option Z;
  r_input : option Json;
  r_output : option Json;
  r_metadata : option Json
}.

Record StepRow : Type := mkStepRow {
  s_id : option string;
  s_run_id : option string;
  s_step_name : option string;
  s_step_type : option string;
  s_step_index : option Z;
  s_started_at : option Z;
  s_completed_at : option Z;
  s_duration_ms : option Z;
  s_input : option Json;
  s_output : option Json;
  s_candidates_in : option Z;
  s_candidates_out : option Z;
  s_reasoning : option string;
  s_filters_applied : option Json;
  s_metadata : option Json
}.

Record CandidateRow : Type := mkCandidateRow {
  c_step_id : option string;
  c_candidate_data : option Json;
  c_status : option string;
  c_score : option Q;
  c_reason : option string;
  c_rejection_reason : option string;
  c_rejection_filter : option string
}.

Record Db : Type := mkDb {
  runs_table : list RunRow;
  steps_table : list StepRow;
  candidates_table : list CandidateRow
}.

(** The statements the ingestion route sends. *)
Inductive Stmt : Type :=
| BEGIN
| COMMIT
| ROLLBACK
| InsertRun (row : RunRow)
| InsertStep (row : StepRow)
| InsertCandidate (row : CandidateRow).

Definition is_insert (q : Stmt) : bool :=
  match q with
  | InsertRun _ | InsertStep _ | InsertCandidate _ => true
  | _ => false
  end.

(** The effect of an accepted statement on the tables it sees. *)
Definition apply_insert (db : Db) (q : Stmt) : Db :=
  match q with
  | InsertRun row =>
      {| runs_table := runs_table db ++ [row];
         steps_table := steps_table db;
         candidates_table := candidates_table db |}
  | InsertStep row =>
      {| runs_table := runs_table db;
         steps_table := steps_table db ++ [row];
         candidates_table := candidates_table db |}
  | InsertCandidate row =>
      {| runs_table := runs_table db;
         steps_table := steps_table db;
         candidates_table := candidates_table db ++ [row] |}
  | _ => db
  end.

(** A value thrown in the handler: an [Error] with its message, or
    something that is not an [Error]. *)
Inductive Thrown : Type :=
| ErrorObject (message : string)
| NotAnError.

(** One pooled connection: the committed tables, the tables as the open
    transaction sees them, and the statements received so far. *)
Record Client : Type := mkClient {
  committed : Db;
  transaction : option Db;
  issued : list Stmt
}.

(** The connection [pool.connect()] resolves to. *)
Definition connect (db : Db) : Client :=
  {| committed := db; transaction := None; issued := [] |}.

Definition view (c : Client) : Db := default (committed c) (transaction c).

Section Handlers.

(** The pool hands out a connection, or [pool.connect()] rejects with a
    message. *)
Context (pool_error : option string).

(** The store decides on each statement, [BEGIN], [COMMIT] and [ROLLBACK]
    included, from the tables the statement sees: [Some msg] when it
    raises an [Error] with that message (constraint violation, bad value,
    lost connection, ...) and the statement has no effect. *)
Context (refuses : Db → Stmt → option string).

(** A handler body: it acts on the connection and returns or throws. *)
Definition Handler (A : Type) : Type := Client → Client * (Thrown + A).

#[global] Instance Handler_ret : MRet Handler := λ A a c, (c, inr a).

#[global] Instance Handler_bind : MBind Handler := λ A B k m c,
  match m c with
  | (c', inl e) => (c', inl e)
  | (c', inr a) => k a c'
  end.

Definition logged (q : Stmt) (c : Client) : list Stmt := issued c ++ [q].

(** [await client.query(q)] *)
Definition query (q : Stmt) : Handler unit := λ c,
  match refuses (view c) q with
  | Some msg =>
      ({| committed := committed c; transaction := transaction c;
          issued := logged q c |}, inl (ErrorObject msg))
  | None =>
      match q with
      | BEGIN =>
          ({| committed := committed c; transaction := Some (committed c);
              issued := logged q c |}, inr tt)
      | COMMIT =>
          ({| committed := view c; transaction := None;
              issued := logged q c |}, inr tt)
      | ROLLBACK =>
          ({| committed := committed c; transaction := None;
              issued := logged q c |}, inr tt)
      | _ =>
          match transaction c with
          | Some t =>
              ({| committed := committed c;
                  transaction := Some (apply_insert t q);
                  issued := logged q c |}, inr tt)
          | None =>
              ({| committed := apply_insert (committed c) q;
                  transaction := None;
                  issued := logged q c |}, inr tt)
          end
      end
  end.

(** [for (const x of l) { await body(x) }] *)
Fixpoint for_of {A} (l : list A) (body : A → Handler unit) : Handler unit :=
  match l with
  | [] => mret tt
  | x :: l' => body x;; for_of l' body
  end.

(** [if (l && l.length > 0) { for (const x of l) { await body(x) } }] *)
Definition if_any_for_of {A} (l : option (list A)) (body : A → Handler unit)
    : Handler unit :=
  match l with
  | Some (x :: l') => for_of (x :: l') body
  | Some [] => mret tt
  | None => mret tt
  end.

(** The parameter lists of the three [INSERT] statements. *)
Definition run_row (run : Run) : RunRow :=
  {| r_id := id run; r_pipeline_name := pipelineName run;
     r_status := run_status run; r_started_at := startedAt run;
     r_completed_at := completedAt run;
     r_input := input run;
     r_output := stringify_if_truthy (output run);
     r_metadata := stringify_if_truthy (metadata run) |}.

Definition step_row (run : Run) (step : Step) : StepRow :=
  {| s_id := step_id step; s_run_id := id run;
     s_step_name := stepName step; s_step_type := stepType step;
     s_step_index := stepIndex step;
     s_started_at := step_startedAt step;
     s_completed_at := step_completedAt step;
     s_duration_ms := durationMs step;
     s_input := stringify_if_truthy (step_input step);
     s_output := stringify_if_truthy (step_output step);
     s_candidates_in := candidatesIn step;
     s_candidates_out := candidatesOut step;
     s_reasoning := reasoning step;
     s_filters_applied := stringify_if_truthy (filtersApplied step);
     s_metadata := stringify_if_truthy (step_metadata step) |}.

Definition candidate_row (step : Step) (candidate : Candidate)
    : CandidateRow :=
  {| c_step_id := step_id step; c_candidate_data := data candidate;
     c_status := status candidate; c_score := score candidate;
     c_reason := reason candidate;
     c_rejection_reason := rejectionReason candidate;
     c_rejection_filter := rejectionFilter candidate |}.

(** The two JSON bodies of the route: [{ success: true, message, runId }]
    and [{ success: false, error }]. *)
Inductive Body : Type :=
| Recorded (message : string) (runId : option string)
| Failed (error : string).

Record Response : Type := mkResponse {
  http_status : Z;
  body : Body
}.

(** The [try] block of the [POST /runs] handler. *)
Definition post_runs_try (run : Run) : Handler Response :=
  query BEGIN;;
  query (InsertRun (run_row run));;
  if_any_for_of (steps run) (λ step,
    query (InsertStep (step_row run step));;
    if_any_for_of (candidates step) (λ candidate,
      query (InsertCandidate (candidate_row step candidate))));;
  query COMMIT;;
  mret {| http_status := 201;
          body := Recorded "Run trace recorded successfully" (id run) |}.

(** The [catch] block. *)
Definition post_runs_catch (error : Thrown) : Handler Response :=
  query ROLLBACK;;
  mret {| http_status := 500;
          body := Failed match error with
                         | ErrorObject message => message
                         | NotAnError => "Unknown error"
                         end |}.

(** [router.post("/runs", ...)]: the connection when the handler is done
    and the response it sent, if any. [pool.connect()] is awaited before
    the [try], and the [catch] block awaits [ROLLBACK] first: when either
    of them rejects, so does the handler, and it has sent no response. *)
Definition post_runs (db : Db) (run : Run) : Client * option Response :=
  match pool_error with
  | Some _ => (connect db, None)
  | None =>
      let client := connect db in
      match post_runs_try run client with
      | (client, inr res) => (client, Some res)
      | (client, inl error) =>
          match post_runs_catch error client with
          | (client, inr res) => (client, Some res)
          | (client, inl _) => (client, None)
          end
      end
  end.

(** *** Notions the properties are stated with *)

(** The steps a payload lists, in the order of its [steps] array, and
    the candidates a step lists, in the order of its [candidates] array;
    none when the field is missing. *)
Definition listed_steps (run : Run) : list Step :=
  match steps run with
  | Some l => l
  | None => []
  end.

Definition listed_candidates (step : Step) : list Candidate :=
  match candidates step with
  | Some l => l
  | None => []
  end.

(** The inserts a payload asks for: the run, then each listed step
    followed by its candidates. *)
Definition inserts_of (run : Run) : list Stmt :=
  InsertRun (run_row run) ::
  (step ← listed_steps run;
   InsertStep (step_row run step) ::
   (InsertCandidate ∘ candidate_row step <$> listed_candidates step)).

(** Sending [qs] one after the other to a store whose tables are [db]:
    the statements up to and including the first one it refuses, with the
    message of the refusal; [None] when it accepts them all. *)
Fixpoint first_refusal (db : Db) (qs : list Stmt)
    : option (list Stmt * string) :=
  match qs with
  | [] => None
  | q :: qs' =>
      match refuses db q with
      | Some msg => Some ([q], msg)
      | None =>
          match first_refusal (apply_insert db q) qs' with
          | Some (sent, msg) => Some (q :: sent, msg)
          | None => None
          end
      end
  end.

(** The store raises on none of [BEGIN], [COMMIT] and [ROLLBACK]. *)
Definition control_accepted : Prop :=
  ∀ t q, is_insert q = false → refuses t q = None.

(** What becomes of a request whose statement list was refused after
    [sent]: the refused statement saw the tables left by the statements
    before it; [ROLLBACK] is sent to a store in that state, and the
    answer is 500 with the message of the refusal unless [ROLLBACK] is
    refused as well, in which case there is no answer. *)
Definition after_refusal (db : Db) (sent : list Stmt) (msg : string)
    : Client * option Response :=
  let seen := foldl apply_insert db (removelast sent) in
  match refuses seen ROLLBACK with
  | None =>
      ({| committed := db; transaction := None;
          issued := sent ++ [ROLLBACK] |},
       Some {| http_status := 500; body := Failed msg |})
  | Some _ =>
      ({| committed := db;
          transaction := match removelast sent with
                         | [] => None
                         | _ :: _ => Some seen
                         end;
          issued := sent ++ [ROLLBACK] |}, None)
  end.

End Handlers.

(** *** The constraints of [schema.sql] that an insert can violate:
    [NOT NULL] columns, primary keys and foreign keys. *)

Inductive Violation : Type :=
| NotNull
| Duplicate
| ForeignKey.

Definition has_run (db : Db) (k : option string) : bool :=
  bool_decide (k ∈ r_id <$> runs_table db).

Definition has_step (db : Db) (k : option string) : bool :=
  bool_decide (k ∈ s_id <$> steps_table db).

Definition is_null {A} (x : option A) : bool :=
  match x with Some _ => false | None => true end.

Section Schema.

(** The wording of the store's message for a violated constraint. *)
Context (message : Violation → Stmt → string).

(** Every other error of the store: a value that does not fit the type
    of its column ([UUID], [INTEGER], [VARCHAR(255)], [TIMESTAMP],
    [DECIMAL], [JSONB]), two spellings of one uuid, a lost connection.
    Such an error comes before the constraints are looked at. *)
Context (other_error : Db → Stmt → option string).

Definition constraint_violated (db : Db) (q : Stmt) : option Violation :=
  match q with
  | InsertRun row =>
      if is_null (r_id row) || is_null (r_pipeline_name row)
         || is_null (r_status row) || is_null (r_started_at row)
      then Some NotNull
      else if has_run db (r_id row) then Some Duplicate
      else None
  | InsertStep row =>
      if is_null (s_id row) || is_null (s_run_id row)
         || is_null (s_step_name row) || is_null (s_step_type row)
         || is_null (s_step_index row) || is_null (s_started_at row)
      then Some NotNull
      else if has_step db (s_id row) then Some Duplicate
      else if negb (has_run db (s_run_id row)) then Some ForeignKey
      else None
  | InsertCandidate row =>
      if is_null (c_step_id row) || is_null (c_candidate_data row)
         || is_null (c_status row)
      then Some NotNull
      else if negb (has_step db (c_step_id row)) then Some ForeignKey
      else None
  | _ => None
  end.

Definition schema_refuses (db : Db) (q : Stmt) : option string :=
  match other_error db q with
  | Some msg => Some msg
  | None => (λ v, message v q) <$> constraint_violated db q
  end.

End Schema.

(** *** [POST /runs/query] *)

(** The [minEliminationRate] of a request body that has one: JSON
    [null], a number, or some other JSON value. *)
Inductive Threshold : Type :=
| Null
| Number (x : JsNum)
| NotANumber (v : Json).

Record QueryFilter : Type := mkQueryFilter {
  q_pipelineName : option string;
  q_status : option string;
  minEliminationRate : option Threshold;
  q_stepName : option string;
  startDate : option Z;
  endDate : option Z
}.

(** One row of the elimination-rate query. *)
Record EliminationRow : Type := mkEliminationRow {
  e_run_id : option string;
  e_pipeline_name : option string;
  e_started_at : option Z;
  e_step_name : option string;
  e_step_type : option string;
  e_candidates_in : option Z;
  e_candidates_out : option Z;
  elimination_rate : option JsNum;
  e_filters_applied : option Json
}.

(** [1.0 - o::float / i] on two [INTEGER] values, [i] not zero: both
    are converted to [float8] (exactly) and the quotient and the
    difference are formed in [float8]. *)
Definition float8_rate (i o : Z) : JsNum :=
  sub (of_Z 1) (div (of_Z o) (of_Z i)).

(** [x <= y] on [float8]: [NaN] is equal to itself and above every
    other value. *)
Definition float8_le (x y : JsNum) : bool :=
  match x, y with
  | _, S754_nan => true
  | S754_nan, _ => false
  | S754_infinity sx, S754_infinity sy => sx || negb sy
  | S754_infinity sx, _ => sx
  | _, S754_infinity sy => negb sy
  | _, _ => Qle_bool (value x) (value y)
  end.

(** [1.0 - s.candidates_out::float / NULLIF(s.candidates_in, 0)] *)
Definition rate_of (cin cout : option Z) : option JsNum :=
  match cin, cout with
  | Some i, Some o => if i =? 0 then None else Some (float8_rate i o)
  | _, _ => None
  end.

(** [s.candidates_in > 0 AND (1.0 - s.candidates_out::float /
    s.candidates_in) >= $1], for a parameter that is a [float8] or
    [NULL]: the row is kept when the condition is true, dropped when it is
    false or [NULL]. The conjuncts are evaluated in the order written, so
    that the quotient is formed for a positive [candidates_in] only. *)
Definition where_clause (threshold : option JsNum) (s : StepRow) : bool :=
  match s_candidates_in s with
  | Some i =>
      (0 <? i) &&
      match s_candidates_out s, threshold with
      | Some o, Some t => float8_le t (float8_rate i o)
      | _, _ => false
      end
  | None => false
  end.

(** [r.id = s.run_id]; a comparison with [NULL] is not true. *)
Definition join_on (r : RunRow) (s : StepRow) : bool :=
  match r_id r, s_run_id s with
  | Some a, Some b => String.eqb a b
  | _, _ => false
  end.

Definition select_row (r : RunRow) (s : StepRow) : EliminationRow :=
  {| e_run_id := r_id r; e_pipeline_name := r_pipeline_name r;
     e_started_at := r_started_at r; e_step_name := s_step_name s;
     e_step_type := s_step_type s;
     e_candidates_in := s_candidates_in s;
     e_candidates_out := s_candidates_out s;
     elimination_rate := rate_of (s_candidates_in s) (s_candidates_out s);
     e_filters_applied := s_filters_applied s |}.

(** [FROM runs r JOIN steps s ON r.id = s.run_id WHERE ...], before
    [ORDER BY] and [LIMIT]. *)
Definition matching_rows (db : Db) (threshold : option JsNum)
    : list EliminationRow :=
  r ← runs_table db;
  s ← List.filter (λ s, join_on r s && where_clause threshold s)
                  (steps_table db);
  [select_row r s].

(** [ORDER BY elimination_rate DESC]; a [NULL] rate sorts first. *)
Definition rate_desc (a b : EliminationRow) : Prop :=
  match elimination_rate a, elimination_rate b with
  | None, _ => True
  | Some _, None => False
  | Some x, Some y => float8_le y x = true
  end.

#[global] Instance rate_desc_dec : RelDecision rate_desc.
Proof.
  intros a b. unfold rate_desc.
  destruct (elimination_rate a), (elimination_rate b); apply _.
Defined.

(** [ORDER BY started_at DESC]; a [NULL] time sorts first. *)
Definition started_desc (a b : RunRow) : Prop :=
  match r_started_at a, r_started_at b with
  | None, _ => True
  | Some _, None => False
  | Some x, Some y => y ≤ x
  end.

#[global] Instance started_desc_dec : RelDecision started_desc.
Proof.
  intros a b. unfold started_desc.
  destruct (r_started_at a), (r_started_at b); apply _.
Defined.

(** The [data] of a successful answer, or the [error] of a failed one. *)
Inductive QueryData : Type :=
| StepRows (rows : list EliminationRow)
| RunRows (rows : list RunRow)
| QueryFailed (error : string).

Record QueryResponse : Type := mkQueryResponse {
  query_status : Z;
  success : bool;
  query_data : QueryData
}.

Section Query.

(** [pool.query] rejects with a message: the store cannot be reached,
    or it cannot read the parameter it is given as a [float8]. The
    argument is the parameter of the query, if it has one. *)
Context (query_error : option Threshold → option string).

(** The [float8] the store reads from the text of a parameter that is
    neither [null] nor a number, when it can read it. *)
Context (float8_in : Json → JsNum).

(** [$1] as the store reads it. *)
Definition bound (t : Threshold) : option JsNum :=
  match t with
  | Null => None
  | Number x => Some x
  | NotANumber v => Some (float8_in v)
  end.

(** [router.post("/runs/query", ...)]; the elimination-rate query is
    chosen by [filter.minEliminationRate !== undefined]. *)
Definition post_runs_query (db : Db) (filter : QueryFilter) : QueryResponse :=
  match query_error (minEliminationRate filter) with
  | Some msg =>
      {| query_status := 500; success := false;
         query_data := QueryFailed msg |}
  | None =>
      match minEliminationRate filter with
      | Some t =>
          {| query_status := 200; success := true;
             query_data :=
               StepRows (take 100 (merge_sort rate_desc
                                              (matching_rows db (bound t)))) |}
      | None =>
          {| query_status := 200; success := true;
             query_data :=
               RunRows (take 50 (merge_sort started_desc (runs_table db))) |}
      end
  end.

End Query.

(** *** [GET /runs/:id] *)

(** The queries of the route: the run, its steps, and, all at once, the
    candidates of each step. *)
Inductive FetchQuery : Type :=
| SelectRun (id : string)
| SelectSteps (id : string)
| SelectCandidates (step_ids : list (option string)).

(** [column = $1] for a parameter that is the text of a uuid, given in
    the spelling of the store; a [NULL] column is not equal. *)
Definition sql_eq (column : option string) (value : string) : bool :=
  match column with
  | Some v => String.eqb v value
  | None => false
  end.

(** [ORDER BY step_index ASC]; a [NULL] index sorts last. *)
Definition step_index_asc (a b : StepRow) : Prop :=
  match s_step_index a, s_step_index b with
  | Some x, Some y => x ≤ y
  | _, None => True
  | None, Some _ => False
  end.

#[global] Instance step_index_asc_dec : RelDecision step_index_asc.
Proof.
  intros a b. unfold step_index_asc.
  destruct (s_step_index a), (s_step_index b); apply _.
Defined.

(** The two JSON bodies of the route: [{ success: true, data: { ...run,
    steps } }], each step with its [candidates], and [{ success: false,
    error }]. *)
Inductive GetBody : Type :=
| RunFound (run : RunRow) (steps : list (StepRow * list CandidateRow))
| FetchFailed (error : string).

Record GetResponse : Type := mkGetResponse {
  get_status : Z;
  get_body : GetBody
}.

Section Fetch.

(** [pool.query] rejects with a message: the id is not the text of a
    uuid, the store cannot be reached. For the candidate queries, which
    run side by side, it is the rejection that [Promise.all] takes up. *)
Context (raises : FetchQuery → option string).

(** The spelling in which the store prints the uuid it reads from a
    text: lower case, hyphenated. The ids in the tables are in that
    spelling. *)
Context (spelling : string → string).

(** The order in which the store hands out the rows that a query
    selects; it is some order, and [ORDER BY] sorts from it. The
    candidates are scanned once for each step. *)
Context (scan_runs : list RunRow → list RunRow).
Context (scan_steps : list StepRow → list StepRow).
Context (scan_candidates : option string → list CandidateRow
                           → list CandidateRow).

(** [SELECT * FROM candidates WHERE step_id = $1] with the id of a step
    row as parameter. *)
Definition candidates_of (db : Db) (step : StepRow) : list CandidateRow :=
  scan_candidates (s_id step)
    match s_id step with
    | Some k => List.filter (λ c, sql_eq (c_step_id c) k) (candidates_table db)
    | None => []
    end.

(** [Promise.all] over the candidate queries, one for each step row:
    without a step no query is sent and nothing can reject. *)
Definition candidate_queries_reject (steps : list StepRow) : option string :=
  match steps with
  | [] => None
  | _ => raises (SelectCandidates (s_id <$> steps))
  end.

(** [router.get("/runs/:id", ...)] *)
Definition get_run (db : Db) (id : string) : GetResponse :=
  match raises (SelectRun id) with
  | Some msg => {| get_status := 500; get_body := FetchFailed msg |}
  | None =>
      match scan_runs (List.filter (λ r, sql_eq (r_id r) (spelling id))
                                   (runs_table db)) with
      | [] => {| get_status := 404; get_body := FetchFailed "Run not found" |}
      | run :: _ =>
          match raises (SelectSteps id) with
          | Some msg => {| get_status := 500; get_body := FetchFailed msg |}
          | None =>
              let steps :=
                merge_sort step_index_asc
                  (scan_steps
                     (List.filter (λ s, sql_eq (s_run_id s) (spelling id))
                                  (steps_table db))) in
              match candidate_queries_reject steps with
              | Some msg =>
                  {| get_status := 500; get_body := FetchFailed msg |}
              | None =>
                  {| get_status := 200;
                     get_body :=
                       RunFound run ((λ step, (step, candidates_of db step))
                                       <$> steps) |}
              end
          end
      end
  end.

End Fetch.

(** *** The constraints of [schema.sql] as a property of the tables *)

Definition run_row_ok (r : RunRow) : bool :=
  negb (is_null (r_id r) || is_null (r_pipeline_name r)
        || is_null (r_status r) || is_null (r_started_at r)).

Definition step_row_ok (s : StepRow) : bool :=
  negb (is_null (s_id s) || is_null (s_run_id s)
        || is_null (s_step_name s) || is_null (s_step_type s)
        || is_null (s_step_index s) || is_null (s_started_at s)).

Definition candidate_row_ok (c : CandidateRow) : bool :=
  negb (is_null (c_step_id c) || is_null (c_candidate_data c)
        || is_null (c_status c)).

(** Primary keys are unique, [NOT NULL] columns are filled, and every
    foreign key refers to a row that is there. *)
Definition db_consistent (db : Db) : Prop :=
  NoDup (r_id <$> runs_table db)
  ∧ NoDup (s_id <$> steps_table db)
  ∧ Forall (λ r, run_row_ok r = true) (runs_table db)
  ∧ Forall (λ s, step_row_ok s = true
                 ∧ s_run_id s ∈ r_id <$> runs_table db) (steps_table db)
  ∧ Forall (λ c, candidate_row_ok c = true
                 ∧ c_step_id c ∈ s_id <$> steps_table db)
           (candidates_table db).

(** A payload that fills every required field, with a run id and step
    ids that are new to the store and step ids that differ from each
    other. *)
Definition payload_ok (db : Db) (run : Run) : Prop :=
  run_row_ok (run_row run) = true
  ∧ (id run ∉ r_id <$> runs_table db)
  ∧ NoDup (step_id <$> listed_steps run)
  ∧ Forall (λ step,
       step_row_ok (step_row run step) = true
       ∧ (step_id step ∉ s_id <$> steps_table db)
       ∧ Forall (λ c, candidate_row_ok (candidate_row step c) = true)
                (listed_candidates step))
     (listed_steps run).

(** The store raises no error of the other kind on a statement of the
    request: the values of the payload fit the columns and the
    connection holds. *)
Definition fits (other_error : Db → Stmt → option string) (run : Run)
    : Prop :=
  ∀ t q, q ∈ BEGIN :: COMMIT :: ROLLBACK :: inserts_of run →
         other_error t q = None.


(** *** Payloads and tables for the examples *)

Definition one_candidate : Candidate :=
  {| data := Some (JStr "charger"); status := Some "accepted";
     score := None; reason := None; rejectionReason := None;
     rejectionFilter := None |}.

Definition one_step (candidate : Candidate) : Step :=
  {| step_id := Some "6f1b2c3d-0001-4000-8000-00000000a001";
     stepName := Some "filter_price";
     stepType := Some "filter"; stepIndex := Some 0;
     step_startedAt := Some 1100; step_completedAt := Some 1200;
     durationMs := Some 100; step_input := None; step_output := None;
     candidatesIn := Some 5000; candidatesOut := Some 450;
     reasoning := None; filtersApplied := Some (JArr []);
     step_metadata := None; candidates := Some [candidate] |}.

Definition one_run (candidate : Candidate) : Run :=
  {| id := Some "6f1b2c3d-0000-4000-8000-000000000001";
     pipelineName := Some "competitor_selection";
     run_status := Some "completed"; startedAt := Some 1000;
     completedAt := Some 2000; input := Some (JStr "product");
     output := None; metadata := None;
     steps := Some [one_step candidate] |}.

(** A payload whose [steps] array is not in the order of [stepIndex]:
    the step with index 1 comes first. *)
Definition bare_step (key : string) (index : Z) : Step :=
  {| step_id := Some key; stepName := Some "filter_price";
     stepType := Some "filter"; stepIndex := Some index;
     step_startedAt := Some 1100; step_completedAt := None;
     durationMs := None; step_input := None; step_output := None;
     candidatesIn := None; candidatesOut := None;
     reasoning := None; filtersApplied := None;
     step_metadata := None; candidates := None |}.

Definition shuffled_run : Run :=
  {| id := Some "6f1b2c3d-0000-4000-8000-000000000002";
     pipelineName := Some "competitor_selection";
     run_status := Some "completed"; startedAt := Some 1000;
     completedAt := Some 2000; input := Some (JStr "product");
     output := None; metadata := None;
     steps := Some [bare_step "6f1b2c3d-0002-4000-8000-00000000b001" 1;
                    bare_step "6f1b2c3d-0002-4000-8000-00000000b000" 0] |}.

Definition empty_db : Db :=
  {| runs_table := []; steps_table := []; candidates_table := [] |}.

(** A store that raises on a violated constraint only, and a wording for
    its messages. *)
Definition no_other_error : Db → Stmt → option string := λ _ _, None.

Definition plain_message : Violation → Stmt → string := λ v _,
  match v with
  | NotNull => "null value violates not-null constraint"
  | Duplicate => "duplicate key value violates unique constraint"
  | ForeignKey => "insert violates foreign key constraint"
  end.

(** A store whose connection is lost once the transaction is open: it
    accepts [BEGIN] and raises on every statement after it. *)
Definition lost_after_begin : Db → Stmt → option string := λ _ q,
  match q with
  | BEGIN => None
  | _ => Some "Connection terminated unexpectedly"
  end.

(** The scenario of the specification: a run with three steps, the first
    from an API (5000 out), then two filters (5000 to 450, 450 to 30); and
    two steps that cannot be rated. *)
Definition run_1 : string := "6f1b2c3d-0000-4000-8000-000000000001".
Definition run_2 : string := "6f1b2c3d-0000-4000-8000-000000000002".
Definition run_3 : string := "6f1b2c3d-0000-4000-8000-000000000003".

Definition scenario_step (key name ty : string) (index : Z)
    (cin cout : option Z) : StepRow :=
  {| s_id := Some key; s_run_id := Some run_1; s_step_name := Some name;
     s_step_type := Some ty; s_step_index := Some index;
     s_started_at := Some 1100; s_completed_at := None;
     s_duration_ms := None; s_input := None; s_output := None;
     s_candidates_in := cin; s_candidates_out := cout;
     s_reasoning := None; s_filters_applied := None; s_metadata := None |}.

Definition scenario_run (key : string) (started : Z) : RunRow :=
  {| r_id := Some key; r_pipeline_name := Some "competitor_selection";
     r_status := Some "completed"; r_started_at := Some started;
     r_completed_at := None; r_input := None; r_output := None;
     r_metadata := None |}.

Definition scenario_db : Db :=
  {| runs_table := [scenario_run run_1 1000; scenario_run run_2 3000;
                    scenario_run run_3 2000];
     steps_table :=
       [scenario_step "6f1b2c3d-0001-4000-8000-00000000a000"
                      "search_products" "api" 0 None (Some 5000);
        scenario_step "6f1b2c3d-0001-4000-8000-00000000a001"
                      "filter_price" "filter" 1 (Some 5000) (Some 450);
        scenario_step "6f1b2c3d-0001-4000-8000-00000000a002"
                      "filter_rating" "filter" 2 (Some 450) (Some 30);
        scenario_step "6f1b2c3d-0001-4000-8000-00000000a003"
                      "filter_empty" "filter" 3 (Some 0) (Some 0);
        scenario_step "6f1b2c3d-0001-4000-8000-00000000a004"
                      "filter_open" "filter" 4 (Some 10) None];
     candidates_table := [] |}.

(** One run with one step that takes 10 candidates to 9. *)
Definition ten_to_nine_db : Db :=
  {| runs_table := [scenario_run run_1 1000];
     steps_table :=
       [scenario_step "6f1b2c3d-0001-4000-8000-00000000a001"
                      "filter_price" "filter" 0 (Some 10) (Some 9)];
     candidates_table := [] |}.

Definition with_threshold (threshold : option Threshold) : QueryFilter :=
  {| q_pipelineName := None; q_status := None;
     minEliminationRate := threshold; q_stepName := None;
     startDate := None; endDate := None |}.

(** A store that answers the queries, except that it reads no text as a
    number. *)
Definition answers_numbers : option Threshold → option string := λ t,
  match t with
  | Some (NotANumber _) =>
      Some "invalid input syntax for type double precision"
  | _ => None
  end.

Definition reads_no_text : Json → JsNum := λ _, NaN.

(** A store that reads every id it is given, as it is spelled, and hands
    out rows in the order of insertion. *)
Definition reads_every_id : FetchQuery → option string := λ _, None.

Definition as_spelled : string → string := λ k, k.

Definition in_order {A} : list A → list A := λ l, l.

(** A store that takes no id for a uuid. *)
Definition reads_no_id : FetchQuery → option string := λ q,
  match q with
  | SelectRun k | SelectSteps k =>
      Some ("invalid input syntax for type uuid: " +:+ k)
  | SelectCandidates _ => None
  end.

End API.

(** * Properties of the trace builder *)

Module SdkSpec.

Import SDK.

(** ** Arithmetic on [JsNum] at integers *)

Lemma Qcompare_inject_Z (a b : Z) :
  (inject_Z a ?= inject_Z b)%Q = (a ?= b).
Proof. unfold Qcompare; simpl. by rewrite !Z.mul_1_r. Qed.

Lemma truncate_inject_Z (z : Z) : truncate (inject_Z z) = z.
Proof.
  unfold truncate. change 0%Q with (inject_Z 0).
  rewrite Qcompare_inject_Z.
  destruct (z ?= 0); auto using Qceiling_Z, Qfloor_Z.
Qed.

Lemma truncate_comp (p q : Q) : (p == q)%Q → truncate p = truncate q.
Proof.
  intros Heq. unfold truncate.
  rewrite (Qcompare_comp p q Heq 0%Q 0%Q (Qeq_refl 0)).
  destruct (q ?= 0)%Q; auto using Qceiling_comp, Qfloor_comp.
Qed.

(** The value of a finite number with mantissa [m > 0]. *)
Lemma value_finite (s : bool) (m e z : Z) :
  0 < m →
  (if 0 <=? e then (if s then - m else m) * 2 ^ e = z
   else (if s then - m else m) = z * 2 ^ (- e)) →
  (value (S754_finite s (Z.to_pos m) e) == inject_Z z)%Q.
Proof.
  intros Hm Hz. unfold value.
  assert (Hn : (if s then Z.neg (Z.to_pos m) else Z.pos (Z.to_pos m))
               = if s then - m else m).
  { destruct s; [rewrite <- Pos2Z.opp_pos|]; by rewrite Z2Pos.id. }
  rewrite Hn. destruct e as [|p|p]; simpl in Hz.
  - by rewrite <- Hz.
  - by rewrite <- Hz.
  - unfold Qeq. simpl. rewrite Pos2Z.inj_pow, Hz.
    change (- Z.neg p) with (Z.pos p). lia.
Qed.

(** [integer] is exact: the number it returns is the integer it is
    given. *)
Lemma value_integer (s : bool) (z : Z) :
  (value (integer s z) == inject_Z z)%Q.
Proof.
  destruct (decide (z = 0)) as [->|Hz]; [done|].
  assert (Hint : integer s z
    = let a := Z.abs z in
      let k := prec - (Z.log2 a + 1) in
      let m := Z.shiftl a k in
      if Z.shiftl m (- k) =? a
      then S754_finite (z <? 0) (Z.to_pos m) (- k)
      else S754_finite (z <? 0) (Z.to_pos a) 0) by by destruct z.
  rewrite Hint. cbv zeta. clear Hint.
  set (a := Z.abs z). set (k := prec - _).
  assert (Ha : 0 < a) by lia.
  assert (Hsgn : (if z <? 0 then - a else a) = z)
    by (destruct (Z.ltb_spec z 0); lia).
  destruct (Z.eqb_spec (Z.shiftl (Z.shiftl a k) (- k)) a) as [Hex|_].
  - assert (Hm : 0 < Z.shiftl a k).
    { pose proof (proj2 (Z.shiftl_nonneg a k) (Z.lt_le_incl _ _ Ha)).
      destruct (decide (Z.shiftl a k = 0)) as [H0|]; [|lia].
      rewrite H0, Z.shiftl_0_l in Hex. lia. }
    apply value_finite; [done|].
    destruct (Z.leb_spec 0 (- k)) as [Hk|Hk].
    + rewrite Z.shiftl_mul_pow2 in Hex by done.
      destruct (z <? 0); lia.
    + rewrite Z.opp_involutive, Z.shiftl_mul_pow2 by lia.
      destruct (z <? 0); lia.
  - apply value_finite; [done|]. simpl. destruct (z <? 0); lia.
Qed.

(** [of_Z] is exact below [2^53]: the mantissa is shifted to 53 bits
    and nothing is rounded away. *)
Lemma digits2_pos_lower (m : positive) :
  2 ^ (Z.pos (digits2_pos m) - 1) ≤ Z.pos m.
Proof.
  induction m as [m IH|m IH|]; simpl digits2_pos; [| |done].
  - rewrite Pos2Z.inj_succ.
    replace (Z.succ (Z.pos (digits2_pos m)) - 1)
      with (Z.succ (Z.pos (digits2_pos m) - 1)) by lia.
    rewrite Z.pow_succ_r by lia. lia.
  - rewrite Pos2Z.inj_succ.
    replace (Z.succ (Z.pos (digits2_pos m)) - 1)
      with (Z.succ (Z.pos (digits2_pos m) - 1)) by lia.
    rewrite Z.pow_succ_r by lia. lia.
Qed.

Lemma digits2_pos_shift (m k : positive) :
  digits2_pos (Pos.iter xO m k) = (digits2_pos m + k)%positive.
Proof.
  induction k as [|k IH] using Pos.peano_ind.
  - simpl. lia.
  - rewrite Pos.iter_succ. simpl. rewrite IH. lia.
Qed.

Lemma shift_value (m k : positive) :
  Z.pos (Pos.iter xO m k) = Z.pos m * 2 ^ Z.pos k.
Proof.
  induction k as [|k IH] using Pos.peano_ind.
  - simpl. lia.
  - rewrite Pos.iter_succ, Pos2Z.inj_succ, Z.pow_succ_r by lia.
    rewrite Pos2Z.inj_xO, IH. lia.
Qed.

Lemma round_aux_exact (s : bool) (m : positive) (e : Z) :
  Z.pos (digits2_pos m) = 53 → -1074 ≤ e ≤ 971 →
  binary_round_aux prec emax s (Z.pos m) e loc_Exact = S754_finite s m e.
Proof.
  intros Hd He.
  assert (Hshr : shr_fexp prec emax (Z.pos m) e loc_Exact
                 = ({| shr_m := Z.pos m; shr_r := false; shr_s := false |},
                    e)).
  { unfold shr_fexp, fexp, emin, Zdigits2, prec, emax. rewrite Hd.
    replace (Z.max (53 + e - 53) (3 - 1024 - 53) - e) with 0 by lia.
    done. }
  unfold binary_round_aux. rewrite Hshr. simpl. rewrite Hshr. simpl.
  destruct (Z.leb_spec e (emax - prec)); [done|]. unfold emax, prec in *. lia.
Qed.

Lemma of_Z_pos (m : positive) :
  Z.pos m < 2 ^ 53 →
  ∃ m' e, of_Z (Z.pos m) = S754_finite false m' e
          ∧ -52 ≤ e ≤ 0 ∧ Z.pos m' * 1 = Z.pos m * 2 ^ (- e).
Proof.
  intros Hm. unfold of_Z, binary_normalize, binary_round.
  pose proof (digits2_pos_lower m) as Hlow.
  assert (Hd : Z.pos (digits2_pos m) ≤ 53).
  { destruct (Z.le_gt_cases (Z.pos (digits2_pos m)) 53) as [|Hgt]; [done|].
    assert (2 ^ 53 ≤ 2 ^ (Z.pos (digits2_pos m) - 1))
      by (apply Z.pow_le_mono_r; lia). lia. }
  unfold shl_align, fexp, emin, prec, emax.
  replace (Z.max (Z.pos (digits2_pos m) + 0 - 53) (3 - 1024 - 53) - 0)
    with (Z.pos (digits2_pos m) - 53) by lia.
  replace (Z.max (Z.pos (digits2_pos m) + 0 - 53) (3 - 1024 - 53))
    with (Z.pos (digits2_pos m) - 53) by lia.
  destruct (Z.pos (digits2_pos m) - 53) as [|k|k] eqn:Hk; [|lia|].
  - fold prec emax. rewrite round_aux_exact by lia.
    exists m, 0. split_and!; [done|lia|lia|simpl; lia].
  - fold prec emax. rewrite round_aux_exact.
    + exists (Pos.iter xO m k), (Z.neg k). split_and!; [done|lia|lia|].
      rewrite shift_value. change (- Z.neg k) with (Z.pos k). lia.
    + rewrite digits2_pos_shift. lia.
    + lia.
Qed.

(** A count below [2^53], as every array length is, is a double. *)
Lemma value_of_Z (z : Z) :
  0 ≤ z < 2 ^ 53 → (value (of_Z z) == inject_Z z)%Q.
Proof.
  intros Hz. destruct z as [|m|m]; [done| |lia].
  destruct (of_Z_pos m) as (m' & e & -> & He & Hm); [lia|].
  unfold value. destruct e as [|p|p]; [|lia|].
  - simpl in Hm. f_equiv. lia.
  - unfold Qeq. simpl. rewrite Pos2Z.inj_pow.
    change (- Z.neg p) with (Z.pos p) in Hm. lia.
Qed.

Lemma integer_finite (s : bool) (z : Z) :
  z ≠ 0 → ∃ sg m e, integer s z = S754_finite sg m e.
Proof.
  intros Hz. unfold integer. destruct z as [|p|p]; [done| |];
    cbv zeta; destruct (_ =? _); eauto.
Qed.

Lemma five_is_5 : (value (of_Z 5) == inject_Z 5)%Q.
Proof. by vm_compute. Qed.

(** [Math.max(k, 5)] on a number that is an integer, and the position
    [slice] makes of it. *)
Lemma to_integer_max_integer (s : bool) (z : Z) :
  ToIntegerOrInfinity (max (integer s z) (of_Z 5)) = Int (Z.max z 5).
Proof.
  destruct (decide (z = 0)) as [->|Hz]; [by destruct s|].
  destruct (integer_finite s z Hz) as (sg & m & e & Hx).
  pose proof (value_integer s z) as Hv. rewrite Hx in Hv.
  rewrite Hx.
  assert (H5 : of_Z 5 = S754_finite false 5629499534213120 (-50))
    by by vm_compute.
  pose proof five_is_5 as Hv5. rewrite H5 in Hv5. rewrite H5.
  unfold max, ltb. rewrite Hv, Hv5, Qcompare_inject_Z.
  unfold Z.max. destruct (z ?= 5) eqn:Hc; unfold ToIntegerOrInfinity.
  - by rewrite (truncate_comp _ _ Hv), truncate_inject_Z.
  - by rewrite (truncate_comp _ _ Hv5), truncate_inject_Z.
  - by rewrite (truncate_comp _ _ Hv), truncate_inject_Z.
Qed.

(** [l.slice(0, Math.max(Math.ceil(p), 5))] for every number [p]. *)
Lemma slice0_quota {A} (l : list A) (p : JsNum) :
  slice0 l (max (ceil p) (of_Z 5))
  = take (SDK.rejected_quota (length l) p) l.
Proof.
  unfold slice0, SDK.rejected_quota.
  assert (Hint : ∀ z, 0 ≤ z →
    take (Z.to_nat (if z <? 0
                    then Z.max (Z.of_nat (length l) + z) 0
                    else Z.min z (Z.of_nat (length l)))) l
    = take (Z.to_nat (Z.min (Z.of_nat (length l)) z)) l).
  { intros z Hz. destruct (Z.ltb_spec z 0); [lia|]. by rewrite Z.min_comm. }
  destruct p as [s|[]| |s m e].
  - change (ceil (S754_zero s)) with (integer s 0).
    rewrite to_integer_max_integer. cbv beta iota zeta. by rewrite Hint.
  - change (ToIntegerOrInfinity _) with (Int 5).
    cbv beta iota zeta. rewrite Hint by done.
    apply (f_equal (λ k, take k l)). lia.
  - change (ToIntegerOrInfinity _) with PlusInfinity.
    cbv beta iota zeta. by rewrite Nat2Z.id.
  - change (ToIntegerOrInfinity _) with (Int 0).
    cbv beta iota zeta. rewrite Hint by done.
    apply (f_equal (λ k, take k l)). lia.
  - unfold ceil. rewrite to_integer_max_integer.
    cbv beta iota zeta. rewrite Hint by lia. done.
Qed.

Section Builder.

Context {Value : Type} `{EqDecision Value}.
Context (VString : string → Value).

Implicit Types (s : Step (Value := Value)) (cs before after : list Value).
Implicit Types (r : Run (Value := Value)) (op : StepOp (Value := Value)).

(** ** Sampling *)

Lemma sample_rejected (sampling : SamplingConfig) cs f :
  sampleCandidates sampling cs rejected f
  = tagged_by rejected f
      <$> take (rejected_quota (length cs)
                               (mul (of_length cs) (sampleRate sampling)))
               cs.
Proof.
  unfold sampleCandidates.
  repeat case_bool_decide; try done. cbn [andb].
  by rewrite slice0_quota.
Qed.

Lemma sample_accepted_keep_all sampling cs f :
  keepAllOutputs sampling = true →
  sampleCandidates sampling cs accepted f = tagged accepted <$> cs.
Proof.
  intros Hk. unfold sampleCandidates. rewrite Hk.
  by case_bool_decide.
Qed.

(** Without [keepAllOutputs] the accepted candidates fall through to the
    last branch, which keeps them all as well. *)
Lemma sample_accepted sampling cs f :
  sampleCandidates sampling cs accepted f = tagged accepted <$> cs.
Proof.
  unfold sampleCandidates.
  repeat case_bool_decide; try done.
  by destruct (keepAllOutputs sampling).
Qed.

Lemma rejected_quota_le n (p : JsNum) : (rejected_quota n p ≤ n)%nat.
Proof. unfold rejected_quota. destruct p as [|[]| |]; lia. Qed.

(** When the product is a number and the multiplication was exact, the
    size is the one the specification states. *)
Lemma exact_product_quota n (p : JsNum) (q : Q) :
  is_number p = true →
  (value p == inject_Z (Z.of_nat n) * q)%Q →
  rejected_quota n p = stated_quota n q.
Proof.
  intros Hnum Hp. unfold rejected_quota, stated_quota.
  rewrite <- (Qceiling_comp _ _ Hp). by destruct p.
Qed.

(** C3 (amended). With disposition [rejected], for every sampling
    configuration and every list of [n] candidates, [sampleCandidates]
    keeps the first [min(n, max(ceil(p), 5))] candidates of the list, in
    their order, each tagged [rejected] and with the name of the rejecting
    filter, where [p] is the product [n * sampleRate] as JavaScript forms
    it, rounded to a double; it keeps all [n] when [p] is [+Infinity] and
    none when [p] is [NaN]. The length enters the product as it is;
    whenever [p] is a number and the product was exact, that size is the
    [min(n, max(ceil(n × sampleRate), 5))] of the specification. *)
Theorem rejected_sample_is_prefix (sampling : SamplingConfig) cs f :
  let p := mul (of_length cs) (sampleRate sampling) in
  let kept := sampleCandidates sampling cs rejected f in
  kept = tagged_by rejected f <$> take (rejected_quota (length cs) p) cs
  ∧ length kept = rejected_quota (length cs) p
  ∧ data <$> kept = take (rejected_quota (length cs) p) cs
  ∧ Forall (λ c, status c = rejected ∧ rejectionFilter c = f) kept
  ∧ rejected_quota (length cs) p
    = match p with
      | S754_nan => 0%nat
      | S754_infinity false => length cs
      | S754_infinity true => Nat.min (length cs) 5
      | _ => Z.to_nat (Z.min (Z.of_nat (length cs))
                             (Z.max (Qceiling (value p)) 5))
      end
  ∧ (Z.of_nat (length cs) < 2 ^ 53 →
     (value (of_length cs) == inject_Z (Z.of_nat (length cs)))%Q)
  ∧ (∀ q : Q,
       is_number p = true →
       (value p == inject_Z (Z.of_nat (length cs)) * q)%Q →
       rejected_quota (length cs) p = stated_quota (length cs) q).
Proof.
  intros p kept. subst kept p. rewrite sample_rejected.
  set (p := mul _ _).
  split_and!.
  - done.
  - rewrite length_fmap, length_take.
    pose proof (rejected_quota_le (length cs) p). lia.
  - rewrite <- list_fmap_compose. apply list_fmap_id.
  - apply Forall_fmap, Forall_true. done.
  - done.
  - intros Hn. apply value_of_Z. lia.
  - intros q. apply exact_product_quota.
Qed.

(** ** Recording operations *)

Lemma recordFiltering_counts s before after name ty params :
  let s' := recordFiltering before after name ty params s in
  candidatesIn s' = Some (Z.of_nat (length before))
  ∧ candidatesOut s' = Some (Z.of_nat (length after)).
Proof. done. Qed.

Lemma recordFiltering_filters s before after name ty params :
  filtersApplied (recordFiltering before after name ty params s)
  = filtersApplied s
    ++ [filter_record {| call_before := before; call_after := after;
                         call_name := name; call_type := ty;
                         call_params := params |}].
Proof. done. Qed.

Lemma recordFiltering_candidates s before after name ty params :
  candidates (recordFiltering before after name ty params s)
  = candidates s
    ++ sampleCandidates (step_sampling s) (rejected_of before after)
                        rejected (Some name)
    ++ sampleCandidates (step_sampling s) after accepted None.
Proof. unfold recordFiltering. simpl. by rewrite <- app_assoc. Qed.

(** What one call of [recordFiltering] adds to the candidates of a
    step: the quota of rejected candidates, tagged with the name of the
    filter, then all the survivors. *)
Lemma filtering_keeps_rejected_prefix s before after name ty params :
  let gone := rejected_of before after in
  candidates (recordFiltering before after name ty params s)
  = candidates s
    ++ (tagged_by rejected (Some name)
          <$> take (rejected_quota
                      (length gone)
                      (mul (of_length gone) (sampleRate (step_sampling s))))
                   gone)
    ++ (tagged accepted <$> after).
Proof.
  intros gone. rewrite recordFiltering_candidates, sample_accepted.
  by rewrite sample_rejected.
Qed.

(** C9. With [keepAllOutputs] set, [recordCandidates] with disposition
    [accepted] on a list of N candidates appends N candidate records, one
    per candidate and in order, each with status [accepted] and the
    candidate as its data, and sets [candidatesOut] to N, the length of the
    list that was passed. *)
Theorem accepted_candidates_all_kept s cs :
  keepAllOutputs (step_sampling s) = true →
  let s' := recordCandidates cs accepted s in
  ∃ kept,
    candidates s' = candidates s ++ kept
    ∧ length kept = length cs
    ∧ data <$> kept = cs
    ∧ Forall (λ c, status c = accepted) kept
    ∧ candidatesOut s' = Some (Z.of_nat (length cs)).
Proof.
  intros Hkeep s'. exists (tagged accepted <$> cs). subst s'.
  unfold recordCandidates. rewrite sample_accepted_keep_all by done.
  rewrite bool_decide_eq_true_2 by done. simpl.
  split_and!; try done.
  - by rewrite length_fmap.
  - rewrite <- list_fmap_compose. apply list_fmap_id.
  - apply Forall_fmap, Forall_true. done.
Qed.

(** C8 (amended). The [FilterData] that [recordFiltering] appends
    carries the lengths of the two sequences as its counts, and as its
    elimination rate the double that JavaScript computes for
    [1 - after.length / before.length]: the two lengths are doubles as
    they are, their quotient is rounded to a double, and its difference
    from 1 is rounded to a double. For 5000 and 450 that is the double
    written [0.91], for 120 and 4 the double nearest to 29/30, and for 10
    and 9 the double written [0.09999999999999998], next but one below
    [0.1]. *)
Theorem filtering_records_rate s before after name ty params :
  let a := Z.of_nat (length after) in
  let b := Z.of_nat (length before) in
  filtersApplied (recordFiltering before after name ty params s)
  = filtersApplied s
    ++ [{| filterName := name; filterType := ty; parameters := params;
           candidateBefore := b; candidatesAfter := a;
           eliminationRate := sub (of_Z 1) (div (of_Z a) (of_Z b)) |}]
  ∧ (a < 2 ^ 53 → (value (of_Z a) == inject_Z a)%Q)
  ∧ (b < 2 ^ 53 → (value (of_Z b) == inject_Z b)%Q)
  ∧ sub (of_Z 1) (div (of_Z 450) (of_Z 5000)) = decimal 91 100
  ∧ sub (of_Z 1) (div (of_Z 4) (of_Z 120)) = decimal 29 30
  ∧ sub (of_Z 1) (div (of_Z 9) (of_Z 10))
    = S754_finite false 7205759403792792 (-56)
  ∧ decimal 1 10 = S754_finite false 7205759403792794 (-56).
Proof.
  intros a b. split_and!.
  - apply recordFiltering_filters.
  - intros Ha. apply value_of_Z. lia.
  - intros Hb. apply value_of_Z. lia.
  - by vm_compute.
  - by vm_compute.
  - by vm_compute.
  - by vm_compute.
Qed.

(** C10. After k ≥ 1 calls of [recordFiltering] on a step, [candidatesIn]
    and [candidatesOut] are the lengths of the two sequences of the last
    call, and [filtersApplied] has grown by one record per call, in the
    order of the calls. *)
Theorem filtering_calls_accumulate s (earlier : list FilterCall) (last : FilterCall) :
  let calls := earlier ++ [last] in
  let s' := foldl apply_filter_call s calls in
  candidatesIn s' = Some (Z.of_nat (length (call_before last)))
  ∧ candidatesOut s' = Some (Z.of_nat (length (call_after last)))
  ∧ filtersApplied s' = filtersApplied s ++ (filter_record <$> calls)
  ∧ length (filtersApplied s') = (length (filtersApplied s) + length calls)%nat.
Proof.
  intros calls s'.
  assert (Hfilters : ∀ l s0, filtersApplied (foldl apply_filter_call s0 l)
                             = filtersApplied s0 ++ (filter_record <$> l)).
  { induction l as [|c l IH]; intros s0; simpl.
    - by rewrite app_nil_r.
    - rewrite IH. unfold apply_filter_call.
      rewrite recordFiltering_filters. rewrite <- app_assoc. by destruct c. }
  subst s' calls. rewrite foldl_snoc. split_and!; try done.
  - unfold apply_filter_call. rewrite recordFiltering_filters.
    rewrite Hfilters, fmap_app, <- app_assoc. by destruct last.
  - unfold apply_filter_call. rewrite recordFiltering_filters.
    rewrite Hfilters. rewrite !length_app, length_fmap. simpl. lia.
Qed.

(** ** The rejected subset *)

Lemma includes_spec after (c : Value) : includes after c = true ↔ c ∈ after.
Proof. unfold includes. apply bool_decide_eq_true. Qed.

Lemma elem_of_rejected_of before after (c : Value) :
  c ∈ rejected_of before after ↔ c ∈ before ∧ c ∉ after.
Proof.
  unfold rejected_of. rewrite list_elem_of_In, List.filter_In, <- list_elem_of_In.
  rewrite negb_true_iff, <- not_true_iff_false, includes_spec. done.
Qed.

(** C7. In [recordFiltering(before, after, ...)] the sequence sampled as
    rejected is the sub-sequence of [before] whose elements do not occur in
    [after] (equality of values being their identity), the sequence sampled
    as accepted is [after], and every element of [before] lies in exactly
    one of the two. *)
Theorem filtering_partitions_before s before after name ty params :
  candidates (recordFiltering before after name ty params s)
  = candidates s
    ++ sampleCandidates (step_sampling s) (rejected_of before after)
                        rejected (Some name)
    ++ sampleCandidates (step_sampling s) after accepted None
  ∧ (∀ c, c ∈ rejected_of before after ↔ c ∈ before ∧ c ∉ after)
  ∧ sublist (rejected_of before after) before
  ∧ Forall (λ c, (c ∈ rejected_of before after ∧ c ∉ after)
                 ∨ ((c ∉ rejected_of before after) ∧ c ∈ after)) before.
Proof.
  split_and!.
  - apply recordFiltering_candidates.
  - intros c. apply elem_of_rejected_of.
  - unfold rejected_of. induction before as [|x l IH]; simpl; [done|].
    destruct (negb _); by constructor.
  - apply Forall_forall. intros c Hc.
    destruct (decide (c ∈ after)) as [Hin|Hout].
    + right. split; [|done]. rewrite elem_of_rejected_of. tauto.
    + left. split; [|done]. by apply elem_of_rejected_of.
Qed.

(** ** The count invariant *)

Lemma counts_after_op s op :
  candidatesIn (apply_op s op)
  = match op with
    | RecordFiltering before _ _ _ _ => Some (Z.of_nat (length before))
    | _ => candidatesIn s
    end
  ∧ candidatesOut (apply_op s op)
    = match op with
      | RecordFiltering _ after _ _ _ => Some (Z.of_nat (length after))
      | _ => from_option Some (candidatesOut s) (written_out op)
      end.
Proof.
  destruct op as [| | cs st | | r [n|] |]; try done.
  by destruct st.
Qed.

Lemma counts_ok_step s op :
  counts_ok s → consistent_op s op = true → counts_ok (apply_op s op).
Proof.
  unfold counts_ok, consistent_op. intros Hok Hop.
  destruct (counts_after_op s op) as [-> ->].
  destruct op as [| | cs st | before after ? ? ? | r [n|] |]; simpl in *;
    try done.
  - destruct st; simpl in *; try done.
    destruct (candidatesIn s); [|done]. by apply bool_decide_eq_true in Hop.
  - apply bool_decide_eq_true in Hop. lia.
  - destruct (candidatesIn s); [|done]. by apply bool_decide_eq_true in Hop.
Qed.

(** C6 (amended). The builder compares no counts. [candidatesOut ≤
    candidatesIn] is kept by a sequence of recording operations when each
    operation is handed counts that agree with the step it is called on:
    an after-sequence no longer than the before-sequence for
    [recordFiltering], a count within the recorded [candidatesIn] for
    [recordCandidates] with disposition [accepted] and for
    [recordLLMDecision] with a count. *)
Theorem counts_kept_by_consistent_calls s ops :
  counts_ok s → consistent s ops = true → counts_ok (apply_ops s ops).
Proof.
  revert s. induction ops as [|op ops IH]; intros s Hok Hcons; [done|].
  simpl in Hcons. apply andb_prop in Hcons as [Hop Hrest].
  apply IH; [by apply counts_ok_step | done].
Qed.

(** ** The life cycle of a run *)

Section Transport.

Context (stringify : RunJSON (Value := Value) → Error + string).
Context (network : string → string → FetchOutcome).

(** What [send] shows of a run, whatever the run. *)
Lemma send_isolated r :
  delivery_isolated stringify network (awaited r (send stringify network r)).
Proof.
  unfold delivery_isolated, send, awaited, try_catch.
  destruct (stringify (Run_toJSON r)) as [e|body] eqn:E; simpl;
    rewrite E; simpl; by split_and!.
Qed.

(** C1 (amended). A run is created [running] and without completion
    time. No operation looks at the status, so each of them does on a
    run that has completed or failed what it does on a running one:
    [addStep] appends a new step, numbered by its position, and an
    operation on a step changes that step and no other, both leaving
    status and completion time as they are; [complete] sets the status to
    [completed] and [fail] sets it to [failed], each with the time of the
    call as completion time, whatever the status was before the call, and
    each hands the run to the transport, which sends it, again if it was
    sent before. *)
Theorem run_status_lifecycle :
  (∀ uuid now name input url sampling metadata,
     let r := new_Run (Value := Value) uuid now name input url sampling
                      metadata in
     run_status r = running ∧ run_completedAt r = None)
  ∧ (∀ r uuid now name ty,
       let out := addStep uuid now name ty r in
       run_status out.2 = run_status r
       ∧ run_completedAt out.2 = run_completedAt r
       ∧ out.1 = length (steps r)
       ∧ steps out.2
         = steps r ++ [new_Step uuid now (run_id r) name ty
                                (length (steps r)) (run_sampling r)])
  ∧ (∀ r handle op,
       let r' := on_step handle op r in
       run_status r' = run_status r
       ∧ run_completedAt r' = run_completedAt r
       ∧ steps r' !! handle = (λ s, apply_op s op) <$> steps r !! handle
       ∧ (∀ i, i ≠ handle → steps r' !! i = steps r !! i))
  ∧ (∀ r now output,
       let done := complete stringify network now output r in
       run_status (run_after done) = completed
       ∧ run_completedAt (run_after done) = Some now
       ∧ run_output (run_after done) = Some output
       ∧ steps (run_after done) = steps r
       ∧ delivery_isolated stringify network done)
  ∧ (∀ r now error,
       let failed := fail VString stringify network now error r in
       run_status (run_after failed) = SDK.failed
       ∧ run_completedAt (run_after failed) = Some now
       ∧ steps (run_after failed) = steps r
       ∧ delivery_isolated stringify network failed)
  ∧ (∀ r now output now' error,
       let done := complete stringify network now output r in
       let failed := fail VString stringify network now' error
                          (run_after done) in
       run_status (run_after failed) = SDK.failed
       ∧ run_completedAt (run_after failed) = Some now'
       ∧ ∀ body body',
           stringify (Run_toJSON (run_after done)) = inr body →
           stringify (Run_toJSON (run_after failed)) = inr body' →
           before_resume done = [FetchPost (apiUrl r +:+ "/runs") body]
           ∧ before_resume failed
             = [FetchPost (apiUrl r +:+ "/runs") body']).
Proof.
  assert (Hdone : ∀ r now output,
    run_after (complete stringify network now output r)
    = mark_completed now output r).
  { intros. unfold complete, awaited. by destruct (send _ _ _) as [evs [e|d]]. }
  assert (Hfailed : ∀ r now error,
    run_after (fail VString stringify network now error r)
    = mark_failed VString now error r).
  { intros. unfold fail, awaited. by destruct (send _ _ _) as [evs [e|d]]. }
  split_and!.
  - done.
  - done.
  - intros r handle op. simpl. split_and!; try done.
    + apply list_lookup_alter_eq.
    + intros i Hi. by apply list_lookup_alter_ne.
  - intros r now output. simpl. rewrite Hdone. split_and!; try done.
    apply send_isolated.
  - intros r now error. simpl. rewrite Hfailed. split_and!; try done.
    apply send_isolated.
  - intros r now output now' error. simpl. rewrite !Hfailed, !Hdone.
    split_and!; try done. intros body body' Hb Hb'.
    pose proof (send_isolated (mark_completed now output r)) as [_ H1].
    pose proof (send_isolated
                  (mark_failed VString now' error
                               (mark_completed now output r))) as [_ H2].
    fold (complete stringify network now output r) in H1.
    fold (fail VString stringify network now' error
               (mark_completed now output r)) in H2.
    rewrite Hdone in H1. rewrite Hfailed in H2.
    rewrite Hb in H1. rewrite Hb' in H2.
    destruct H1 as [-> _], H2 as [H2 _]. split; [done|].
    exact H2.
Qed.

(** Steps are numbered by position: the payload of a run built with the
    SDK lists its steps in the order of their [stepIndex]. *)
Lemma stepIndex_apply_op s op : stepIndex (apply_op s op) = stepIndex s.
Proof.
  destruct op as [| | cs st | | txt [n|] |]; try done.
  unfold apply_op, recordCandidates. by case_bool_decide.
Qed.

Lemma steps_numbered_by_position r (ops : list RunOp) :
  stepIndex <$> steps r = seq 0 (length (steps r)) →
  let r' := run_ops VString stringify network r ops in
  json_stepIndex <$> payload_steps (Run_toJSON r')
  = seq 0 (length (steps r')).
Proof.
  intros Hr r'. subst r'. unfold Run_toJSON. simpl.
  rewrite <- list_fmap_compose.
  change (json_stepIndex ∘ Step_toJSON) with (stepIndex (Value := Value)).
  revert r Hr. induction ops as [|o ops IH]; intros r Hr; [done|].
  apply IH. destruct o as [uuid now name ty | handle op | now output | now error].
  - simpl. rewrite fmap_app, length_app, Hr. simpl.
    by rewrite Nat.add_1_r, seq_S.
  - simpl. rewrite length_alter, <- Hr.
    rewrite (list_fmap_alter stepIndex _ id).
    + by apply list_alter_id.
    + apply Forall_true. intros s. apply stepIndex_apply_op.
  - simpl. unfold complete, awaited. by destruct (send _ _ _) as [evs [e|d]].
  - simpl. unfold fail, awaited. by destruct (send _ _ _) as [evs [e|d]].
Qed.

End Transport.

(** C5 (amended). [complete] and [fail] always return to their caller,
    without waiting for the delivery: what happens up to the return does
    not depend on the network. A payload that does not serialize and a
    request that is rejected are caught and logged with [console.error];
    a request that is answered, with whatever status code, or that never
    settles, is neither raised nor logged. *)
Theorem delivery_never_raises stringify network r now output error :
  let done := complete stringify network now output r in
  let failed := fail VString stringify network now error r in
  delivery_isolated stringify network done
  ∧ delivery_isolated stringify network failed
  ∧ (∀ network',
       let done' := complete stringify network' now output r in
       let failed' := fail VString stringify network' now error r in
       (run_after done', before_resume done', completion done')
       = (run_after done, before_resume done, Returns)
       ∧ (run_after failed', before_resume failed', completion failed')
         = (run_after failed, before_resume failed, Returns)).
Proof.
  intros done failed. subst done failed. unfold complete, fail.
  split_and!; try apply send_isolated.
  intros network'. simpl. unfold send, awaited, try_catch. simpl.
  split.
  - by destruct (stringify _).
  - by destruct (stringify _).
Qed.

End Builder.

(** ** The figures of the specification, and instances *)

(** [n = 4550] at rate [0.01]: the product is the double [45.5]. *)
Example quota_4550 :
  mul (of_Z 4550) (decimal 1 100) = decimal 91 2
  ∧ rejected_quota 4550 (mul (of_Z 4550) (decimal 1 100)) = 46%nat.
Proof. by vm_compute. Qed.

Example quota_3 :
  rejected_quota 3 (mul (of_Z 3) (decimal 1 100)) = 3%nat.
Proof. by vm_compute. Qed.

Example sample_three_rejected :
  sampleCandidates default_sampling [Ref 1; Ref 2; Ref 3] rejected
                   (Some "price_range")
  = [tagged_by rejected (Some "price_range") (Ref 1);
     tagged_by rejected (Some "price_range") (Ref 2);
     tagged_by rejected (Some "price_range") (Ref 3)].
Proof. by vm_compute. Qed.

(** Seven candidates at rate 0.01: the floor of five applies. *)
Example sample_seven_rejected :
  data <$> sampleCandidates default_sampling (Ref <$> seq 0 7) rejected None
  = Ref <$> seq 0 5.
Proof. by vm_compute. Qed.

(** The two figures of the specification come out as the doubles written
    [0.91] and [0.9666666666666667], the double nearest to 29/30. *)
Example rate_5000_450 :
  eliminationRate
    (filter_record {| call_before := replicate 5000 (Ref 0);
                      call_after := replicate 450 (Ref 0);
                      call_name := "price_range"; call_type := "range";
                      call_params := None |})
  = decimal 91 100.
Proof. by vm_compute. Qed.

Example rate_120_4 :
  eliminationRate
    (filter_record {| call_before := replicate 120 (Ref 0);
                      call_after := replicate 4 (Ref 0);
                      call_name := "llm_relevance"; call_type := "llm";
                      call_params := None |})
  = decimal 29 30.
Proof. by vm_compute. Qed.

(** An empty before-sequence: the quotient is [0/0] or [n/0], and the rate
    recorded is [NaN] or [-Infinity]. *)
Example rate_of_empty_before :
  eliminationRate
    (filter_record {| call_before := []; call_after := @nil SampleValue;
                      call_name := "price_range"; call_type := "range";
                      call_params := None |}) = NaN
  ∧ eliminationRate
      (filter_record {| call_before := []; call_after := [Ref 1];
                        call_name := "price_range"; call_type := "range";
                        call_params := None |}) = NegInf.
Proof. by vm_compute. Qed.

(** A sampling rate that is not a number keeps no rejected candidate:
    [Math.max(NaN, 5)] is [NaN] and [slice(0, NaN)] is empty. *)
Example sample_at_NaN_rate :
  sampleCandidates {| keepAllOutputs := true;
                      keepThresholdCandidates := of_Z 10;
                      sampleRate := NaN |}
                   [Ref 1; Ref 2; Ref 3] rejected None = [].
Proof. by vm_compute. Qed.

(** Two objects with the same content at different addresses: the copy in
    the after-sequence does not stand for the original, which is
    rejected. *)
Example rejected_by_identity :
  rejected_of [Ref 1; Ref 2; Ref 3] [Ref 1; Ref 30] = [Ref 2; Ref 3].
Proof. reflexivity. Qed.

Lemma accepted_candidates_all_kept_witness :
  keepAllOutputs (step_sampling sample_step) = true
  ∧ ∃ kept,
      candidates (recordCandidates [Ref 1; Ref 2; Ref 3] accepted sample_step)
      = candidates sample_step ++ kept
      ∧ length kept = 3%nat
      ∧ data <$> kept = [Ref 1; Ref 2; Ref 3]
      ∧ Forall (λ c, status c = accepted) kept
      ∧ candidatesOut
          (recordCandidates [Ref 1; Ref 2; Ref 3] accepted sample_step)
        = Some 3.
Proof.
  split; [reflexivity|].
  apply (accepted_candidates_all_kept sample_step [Ref 1; Ref 2; Ref 3]).
  reflexivity.
Defined.

Lemma counts_kept_by_consistent_calls_witness :
  counts_ok sample_step
  ∧ consistent sample_step consistent_calls = true
  ∧ counts_ok (apply_ops sample_step consistent_calls).
Proof.
  assert (H0 : counts_ok sample_step) by exact I.
  assert (H1 : consistent sample_step consistent_calls = true)
    by reflexivity.
  split_and!; [done | done |].
  exact (counts_kept_by_consistent_calls sample_step consistent_calls H0 H1).
Defined.

(** C6, as stated, fails: a filtering followed by an LLM decision that
    reports more survivors than the filtering saw candidates leaves
    [candidatesIn = 3] and [candidatesOut = 5]. *)
Lemma counts_can_be_inverted :
  let s := apply_ops sample_step
             [RecordFiltering [Ref 1; Ref 2; Ref 3] [Ref 1] "price_range"
                              "range" None;
              RecordLLMDecision "kept more" (Some 5)] in
  candidatesIn s = Some 3 ∧ candidatesOut s = Some 5 ∧ ¬ counts_ok s.
Proof.
  split_and!; [reflexivity | reflexivity |].
  unfold counts_ok. simpl. lia.
Qed.

(** C1, as stated, fails: a run that was completed is failed afterwards,
    and both its status and its completion time change. *)
Lemma completed_run_can_still_fail :
  let r1 := run_after (complete serializes (answers 201) 2000 (Ref 7)
                                sample_run) in
  let r2 := run_after (fail Text serializes (answers 201) 3000
                            {| message := "late" |} r1) in
  run_status r1 = completed ∧ run_completedAt r1 = Some 2000
  ∧ run_status r2 = failed ∧ run_completedAt r2 = Some 3000
  ∧ run_status r2 ≠ run_status r1
  ∧ run_completedAt r2 ≠ run_completedAt r1.
Proof. by split_and!. Qed.

(** C3, as stated, fails, whichever way the rate is read. A hundred
    candidates at the rate written [0.07]: the double product is
    [7.000000000000001] and eight are kept, where [ceil(100 × 7/100)] is
    seven. Six hundred candidates at the rate written [0.01]: the double
    product is [6] and six are kept, where the rate, taken as the
    rational the double stands for, is above [1/100] and gives seven. *)
Lemma rounded_product_changes_the_sample :
  let at_rate rate := {| keepAllOutputs := true;
                         keepThresholdCandidates := of_Z 10;
                         sampleRate := rate |} in
  length (sampleCandidates (at_rate (decimal 7 100)) (Ref <$> seq 0 100)
                           rejected None) = 8%nat
  ∧ stated_quota 100 (7 # 100) = 7%nat
  ∧ length (sampleCandidates (at_rate (decimal 1 100)) (Ref <$> seq 0 600)
                             rejected None) = 6%nat
  ∧ stated_quota 600 (value (decimal 1 100)) = 7%nat.
Proof. by vm_compute. Qed.

(** C8, as stated, fails: from 10 candidates to 9 the rate recorded is
    the double [0.09999999999999998], which is neither [1 − 9/10] nor
    the double nearest to it, [0.1]. *)
Lemma rounded_rate_is_not_exact :
  let s := recordFiltering (Ref <$> seq 0 10) (Ref <$> seq 0 9)
                           "price_range" "range" None sample_step in
  eliminationRate <$> filtersApplied s
  = [S754_finite false 7205759403792792 (-56)]
  ∧ ¬ (value (S754_finite false 7205759403792792 (-56)) == 1 - 9 / 10)%Q
  ∧ decimal 1 10 = S754_finite false 7205759403792794 (-56)
  ∧ (value (S754_finite false 7205759403792792 (-56))
     < value (decimal 1 10))%Q.
Proof. by vm_compute. Qed.

(** C5, as stated, fails: the ingestion service answers 500, the delivery
    has failed, and no line is logged. *)
Lemma answered_failure_is_not_logged :
  let o := complete serializes (answers 500) 2000 (Ref 7) sample_run in
  delivery_failed (answers 500 "http://localhost:3000/api/runs" "{}")
  ∧ completion o = Returns
  ∧ ¬ logged o.
Proof.
  split_and!.
  - simpl. lia.
  - reflexivity.
  - intros (label & detail & Hin). vm_compute in Hin.
    apply list_elem_of_In in Hin. simpl in Hin. by destruct Hin.
Qed.

End SdkSpec.

(** * Properties of the ingestion and query routes *)

Module ApiSpec.

Import API.

Section Ingestion.

Context (pool_error : option string).
Context (refuses : Db → Stmt → option string).

Local Abbreviation query := (query refuses).
Local Abbreviation first_refusal := (first_refusal refuses).

Implicit Types (c : Client) (t db : Db) (qs : list Stmt) (run : Run).

(** ** Sequencing in [Handler] *)

Lemma bind_run {A B} (m : Handler A) (k : A → Handler B) c :
  (m ≫= k) c
  = match m c with
    | (c', inl e) => (c', inl e)
    | (c', inr a) => k a c'
    end.
Proof. done. Qed.

Lemma for_of_app {A} (l1 l2 : list A) (f : A → Handler unit) c :
  for_of (l1 ++ l2) f c = (for_of l1 f;; for_of l2 f) c.
Proof.
  revert c. induction l1 as [|x l1 IH]; intros c; simpl; [done|].
  rewrite !bind_run. destruct (f x c) as [c' [e|[]]]; [done|].
  by rewrite IH.
Qed.

Lemma for_of_fmap {A B} (h : A → B) (l : list A) (f : B → Handler unit) c :
  for_of (h <$> l) f c = for_of l (f ∘ h) c.
Proof.
  revert c. induction l as [|x l IH]; intros c; simpl; [done|].
  rewrite !bind_run. destruct (f (h x) c) as [c' [e|[]]]; [done|].
  by rewrite IH.
Qed.

(** A guarded loop runs over the elements that are listed. *)
Lemma guarded_steps run (f : Step → Handler unit) c :
  if_any_for_of (steps run) f c = for_of (listed_steps run) f c.
Proof. unfold if_any_for_of, listed_steps. by destruct (steps run) as [[]|]. Qed.

Lemma guarded_candidates step (f : Candidate → Handler unit) c :
  if_any_for_of (candidates step) f c = for_of (listed_candidates step) f c.
Proof.
  unfold if_any_for_of, listed_candidates.
  by destruct (candidates step) as [[]|].
Qed.

(** The nested loops of the handler send the inserts of [inserts_of], one
    after the other. *)
Lemma step_loops_flatten run (l : list Step) c :
  for_of l (λ step,
    query (InsertStep (step_row run step));;
    if_any_for_of (candidates step) (λ candidate,
      query (InsertCandidate (candidate_row step candidate)))) c
  = for_of (step ← l;
            InsertStep (step_row run step) ::
            (InsertCandidate ∘ candidate_row step
               <$> listed_candidates step)) query c.
Proof.
  revert c. induction l as [|step l IH]; intros c; [done|].
  rewrite bind_cons, for_of_app. cbn [for_of].
  rewrite !bind_run.
  destruct (query (InsertStep _) c) as [c1 [e|[]]]; [done|].
  rewrite guarded_candidates, for_of_fmap. unfold compose.
  destruct (for_of _ _ c1) as [c2 [e|[]]]; [done|apply IH].
Qed.

(** ** The store, statement by statement *)

Lemma inserts_of_are_inserts run :
  Forall (λ q, is_insert q = true) (inserts_of run).
Proof.
  unfold inserts_of. constructor; [done|].
  apply Forall_bind, Forall_true. intros step.
  constructor; [done|]. by apply Forall_fmap, Forall_true.
Qed.

Lemma first_refusal_nonempty t qs sent msg :
  first_refusal t qs = Some (sent, msg) → sent ≠ [].
Proof.
  destruct qs as [|q qs]; simpl; [done|].
  destruct (refuses t q); [by intros [= <- _]|].
  destruct (API.first_refusal _ _ _) as [[]|]; [by intros [= <- _]|done].
Qed.

Lemma first_refusal_app t qs1 qs2 :
  first_refusal t (qs1 ++ qs2)
  = match first_refusal t qs1 with
    | Some r => Some r
    | None =>
        match first_refusal (foldl apply_insert t qs1) qs2 with
        | Some (sent, msg) => Some (qs1 ++ sent, msg)
        | None => None
        end
    end.
Proof.
  revert t. induction qs1 as [|q qs1 IH]; intros t; simpl.
  - by destruct (API.first_refusal _ _ _) as [[]|].
  - destruct (refuses t q); [done|]. rewrite IH.
    destruct (API.first_refusal refuses (apply_insert t q) qs1) as [[]|];
      [done|].
    by destruct (API.first_refusal _ _ _) as [[]|].
Qed.

Lemma removelast_cons {A} (x : A) (l : list A) :
  l ≠ [] → removelast (x :: l) = x :: removelast l.
Proof. by destruct l. Qed.

Lemma removelast_snoc {A} (l : list A) (x : A) :
  removelast (l ++ [x]) = l.
Proof. by rewrite removelast_app, app_nil_r. Qed.

(** Inside a transaction, a list of inserts runs up to the first one
    that is refused. *)
Lemma inserts_in_transaction qs c t :
  Forall (λ q, is_insert q = true) qs →
  transaction c = Some t →
  for_of qs query c
  = match first_refusal t qs with
    | None =>
        ({| committed := committed c;
            transaction := Some (foldl apply_insert t qs);
            issued := issued c ++ qs |}, inr tt)
    | Some (sent, msg) =>
        ({| committed := committed c;
            transaction := Some (foldl apply_insert t (removelast sent));
            issued := issued c ++ sent |}, inl (ErrorObject msg))
    end
  ∧ match first_refusal t qs with
    | None => True
    | Some (sent, msg) => sent `prefix_of` qs
    end.
Proof.
  intros Hins. revert c t.
  induction Hins as [|q qs Hq _ IH]; intros c t Ht; simpl.
  { destruct c; simpl in *; subst. by rewrite app_nil_r. }
  rewrite bind_run.
  assert (Hstep : query q c
    = match refuses t q with
      | Some msg =>
          ({| committed := committed c; transaction := Some t;
              issued := issued c ++ [q] |}, inl (ErrorObject msg))
      | None =>
          ({| committed := committed c;
              transaction := Some (apply_insert t q);
              issued := issued c ++ [q] |}, inr tt)
      end).
  { unfold API.query, view, logged. rewrite Ht. simpl.
    destruct (refuses t q); [done|]. by destruct q. }
  rewrite Hstep. destruct (refuses t q) as [msg|].
  { split; [done | by apply prefix_cons, prefix_nil]. }
  specialize (IH {| committed := committed c;
                    transaction := Some (apply_insert t q);
                    issued := issued c ++ [q] |} (apply_insert t q) eq_refl).
  destruct (API.first_refusal refuses (apply_insert t q) qs)
    as [[sent msg]|] eqn:E.
  - destruct IH as [-> Hpre]. split; [|by apply prefix_cons].
    rewrite removelast_cons by by eapply first_refusal_nonempty.
    simpl. by rewrite <- app_assoc.
  - destruct IH as [-> _]. split; [|done]. simpl. by rewrite <- app_assoc.
Qed.

(** The [try] block up to [COMMIT], on a connection whose transaction is
    open. *)
Lemma post_runs_inserts run c (K : Handler Response) :
  (query (InsertRun (run_row run));;
   if_any_for_of (steps run) (λ step,
     query (InsertStep (step_row run step));;
     if_any_for_of (candidates step) (λ candidate,
       query (InsertCandidate (candidate_row step candidate))));; K) c
  = (for_of (inserts_of run) query;; K) c.
Proof.
  unfold inserts_of. cbn [for_of]. rewrite !bind_run.
  destruct (query (InsertRun _) c) as [c1 [e|[]]]; [done|].
  rewrite !bind_run. by rewrite guarded_steps, step_loops_flatten.
Qed.

(** What the [catch] block does after a refusal. *)
Lemma post_runs_catch_run db sent msg c :
  committed c = db →
  view c = foldl apply_insert db (removelast sent) →
  transaction c = match removelast sent with
                  | [] => None
                  | _ :: _ => Some (foldl apply_insert db (removelast sent))
                  end →
  issued c = sent →
  match post_runs_catch refuses (ErrorObject msg) c with
  | (c', inr res) => (c', Some res)
  | (c', inl _) => (c', None)
  end = after_refusal refuses db sent msg.
Proof.
  intros Hdb Hview Htx Hsent.
  unfold post_runs_catch, after_refusal. rewrite bind_run.
  unfold API.query, logged. rewrite Hview, Hdb, Hsent, Htx.
  by destruct (refuses _ ROLLBACK).
Qed.

(** The handler as one equation. *)
Lemma post_runs_outcome db run :
  post_runs pool_error refuses db run
  = match pool_error with
    | Some _ => (connect db, None)
    | None =>
        match first_refusal db (BEGIN :: inserts_of run ++ [COMMIT]) with
        | None =>
            ({| committed := foldl apply_insert db (inserts_of run);
                transaction := None;
                issued := BEGIN :: inserts_of run ++ [COMMIT] |},
             Some {| http_status := 201;
                     body := Recorded "Run trace recorded successfully"
                                      (id run) |})
        | Some (sent, msg) => after_refusal refuses db sent msg
        end
    end.
Proof.
  unfold post_runs. destruct pool_error as [e|]; [done|].
  unfold post_runs_try. rewrite bind_run. cbn [API.first_refusal].
  unfold API.query at 1. cbn [connect view committed transaction default].
  destruct (refuses db BEGIN) as [msg|] eqn:Hbegin.
  { by apply post_runs_catch_run. }
  cbn [apply_insert]. rewrite post_runs_inserts, bind_run.
  rewrite first_refusal_app.
  pose (c0 := {| committed := db; transaction := Some db;
                 issued := logged BEGIN (connect db) |}).
  destruct (inserts_in_transaction (inserts_of run) c0 db
              (inserts_of_are_inserts run) eq_refl) as [Hrun Hpre].
  fold c0. rewrite Hrun.
  destruct (API.first_refusal refuses db (inserts_of run))
    as [[sent msg]|] eqn:E.
  - assert (Hne : sent ≠ []) by by eapply first_refusal_nonempty.
    apply post_runs_catch_run; try done; cbn [view transaction default];
      rewrite removelast_cons by done; done.
  - rewrite bind_run. unfold API.query at 1.
    cbn [view transaction default API.first_refusal].
    destruct (refuses _ COMMIT) as [msg|] eqn:Hcommit.
    + apply post_runs_catch_run; try done; cbn [view transaction default];
        rewrite app_comm_cons, removelast_snoc; done.
    + cbv [mret Handler_ret]. unfold logged, c0, logged.
      by cbn [issued connect committed Datatypes.id app].
Qed.

(** The rows an accepted payload adds to the three tables. *)
Lemma candidate_rows_added db (f : Candidate → CandidateRow)
    (l : list Candidate) :
  foldl apply_insert db (InsertCandidate ∘ f <$> l)
  = {| runs_table := runs_table db; steps_table := steps_table db;
       candidates_table := candidates_table db ++ (f <$> l) |}.
Proof.
  revert db. induction l as [|x l IH]; intros db; simpl.
  - destruct db; simpl. by rewrite app_nil_r.
  - rewrite IH. simpl. by rewrite <- app_assoc.
Qed.

Lemma step_rows_added db run (l : list Step) :
  foldl apply_insert db
        (step ← l;
         InsertStep (step_row run step) ::
         (InsertCandidate ∘ candidate_row step
            <$> listed_candidates step))
  = {| runs_table := runs_table db;
       steps_table := steps_table db ++ (step_row run <$> l);
       candidates_table :=
         candidates_table db
         ++ (step ← l; candidate_row step <$> listed_candidates step) |}.
Proof.
  revert db. induction l as [|step l IH]; intros db.
  - destruct db; simpl. by rewrite !app_nil_r.
  - rewrite !bind_cons, fmap_cons. cbn [foldl app].
    rewrite foldl_app, candidate_rows_added, IH. simpl.
    by rewrite <- !app_assoc.
Qed.

Lemma ingested_rows db run :
  foldl apply_insert db (inserts_of run)
  = {| runs_table := runs_table db ++ [run_row run];
       steps_table :=
         steps_table db ++ (step_row run <$> listed_steps run);
       candidates_table :=
         candidates_table db
         ++ (step ← listed_steps run;
             candidate_row step <$> listed_candidates step) |}.
Proof. unfold inserts_of. cbn [foldl]. by rewrite step_rows_added. Qed.

(** With [BEGIN], [COMMIT] and [ROLLBACK] accepted, the request is
    refused where its inserts are. *)
Lemma first_refusal_in_transaction db qs :
  control_accepted refuses →
  first_refusal db (BEGIN :: qs ++ [COMMIT])
  = match first_refusal db qs with
    | Some (sent, msg) => Some (BEGIN :: sent, msg)
    | None => None
    end.
Proof.
  intros Hctl. cbn [API.first_refusal]. rewrite (Hctl db BEGIN eq_refl).
  cbn [apply_insert]. rewrite first_refusal_app.
  destruct (API.first_refusal refuses db qs) as [[sent msg]|]; [done|].
  cbn [API.first_refusal]. by rewrite (Hctl _ COMMIT eq_refl).
Qed.

(** C2 (amended). On a connection the pool hands out, and with a store
    that accepts [BEGIN], [COMMIT] and [ROLLBACK], the handler of
    [POST /runs] sends [BEGIN], then the inserts of the payload: the run,
    then each step followed by its candidates, the steps in the order of
    the payload's [steps] array and the candidates in the order of the
    step's [candidates] array. When the store accepts them all the
    handler sends [COMMIT], the rows are appended to the three tables in
    that order and the response is 201 with the run id; when the store
    refuses one, nothing further is inserted, the handler sends
    [ROLLBACK], the committed tables are what they were before the
    request, and the response is 500 with the message of the refusal. *)
Theorem ingestion_all_or_nothing db run :
  pool_error = None →
  control_accepted refuses →
  let inserts :=
    InsertRun (run_row run) ::
    (step ← listed_steps run;
     InsertStep (step_row run step) ::
     (InsertCandidate ∘ candidate_row step <$> listed_candidates step)) in
  match first_refusal db inserts with
  | None =>
      post_runs pool_error refuses db run
      = ({| committed :=
              {| runs_table := runs_table db ++ [run_row run];
                 steps_table :=
                   steps_table db ++ (step_row run <$> listed_steps run);
                 candidates_table :=
                   candidates_table db
                   ++ (step ← listed_steps run;
                       candidate_row step <$> listed_candidates step) |};
            transaction := None;
            issued := BEGIN :: inserts ++ [COMMIT] |},
         Some {| http_status := 201;
                 body := Recorded "Run trace recorded successfully"
                                  (id run) |})
  | Some (sent, msg) =>
      sent `prefix_of` inserts
      ∧ post_runs pool_error refuses db run
        = ({| committed := db; transaction := None;
              issued := BEGIN :: sent ++ [ROLLBACK] |},
           Some {| http_status := 500; body := Failed msg |})
  end.
Proof.
  intros Hpool Hctl inserts. fold (inserts_of run) in inserts.
  rewrite post_runs_outcome, Hpool.
  rewrite first_refusal_in_transaction by done. subst inserts.
  pose (c0 := {| committed := db; transaction := Some db;
                 issued := [BEGIN] |}).
  destruct (inserts_in_transaction (inserts_of run) c0 db
              (inserts_of_are_inserts run) eq_refl) as [_ Hpre].
  destruct (API.first_refusal refuses db (inserts_of run))
    as [[sent msg]|].
  - split; [done|]. unfold after_refusal.
    by rewrite (Hctl _ ROLLBACK eq_refl).
  - by rewrite ingested_rows.
Qed.

End Ingestion.

(** ** The analytical query *)

Lemma float8_le_total (x y : JsNum) :
  float8_le x y = true ∨ float8_le y x = true.
Proof.
  destruct x as [s|[]| |s m e], y as [s'|[]| |s' m' e']; simpl; auto;
    rewrite !Qle_bool_iff;
    match goal with
    | |- (?a <= ?b)%Q ∨ _ => destruct (Qlt_le_dec a b); auto using Qlt_le_weak
    end.
Qed.

Lemma float8_le_trans (x y z : JsNum) :
  float8_le x y = true → float8_le y z = true → float8_le x z = true.
Proof.
  destruct x as [s|[]| |s m e], y as [s'|[]| |s' m' e'],
           z as [s''|[]| |s'' m'' e'']; simpl; try done;
    rewrite !Qle_bool_iff; apply Qle_trans.
Qed.

(** On numbers, [float8] compares the values. *)
Lemma float8_le_numbers (x y : JsNum) :
  is_number x = true → is_number y = true →
  float8_le x y = true ↔ (value x <= value y)%Q.
Proof.
  intros Hx Hy. destruct x, y; try done; simpl; apply Qle_bool_iff.
Qed.

#[local] Instance rate_desc_total : Total rate_desc.
Proof.
  intros a b. unfold rate_desc.
  destruct (elimination_rate a) as [x|], (elimination_rate b) as [y|];
    auto.
  destruct (float8_le_total x y); auto.
Qed.

#[local] Instance rate_desc_trans : Transitive rate_desc.
Proof.
  intros a b c. unfold rate_desc.
  destruct (elimination_rate a) as [x|], (elimination_rate b) as [y|],
           (elimination_rate c) as [z|]; try done.
  eauto using float8_le_trans.
Qed.

#[local] Instance started_desc_total : Total started_desc.
Proof.
  intros a b. unfold started_desc.
  destruct (r_started_at a), (r_started_at b); auto. lia.
Qed.

#[local] Instance started_desc_trans : Transitive started_desc.
Proof.
  intros a b c. unfold started_desc.
  destruct (r_started_at a), (r_started_at b), (r_started_at c);
    try done. lia.
Qed.

Lemma join_on_spec r s :
  join_on r s = true ↔ ∃ k, r_id r = Some k ∧ s_run_id s = Some k.
Proof.
  unfold join_on. destruct (r_id r) as [a|], (s_run_id s) as [b|];
    try (split; [done | by intros (k & ? & ?)]).
  rewrite String.eqb_eq. split.
  - intros ->. by exists b.
  - intros (k & ? & ?). congruence.
Qed.

Lemma where_clause_spec threshold s :
  where_clause threshold s = true
  ↔ ∃ i o x, s_candidates_in s = Some i ∧ s_candidates_out s = Some o
             ∧ threshold = Some x
             ∧ 0 < i ∧ float8_le x (float8_rate i o) = true.
Proof.
  unfold where_clause.
  destruct (s_candidates_in s) as [i|];
    [|split; [done | by intros (i & o & x & ? & _)]].
  rewrite andb_true_iff, Z.ltb_lt.
  destruct (s_candidates_out s) as [o|], threshold as [x|].
  - split.
    + intros [Hpos Hle]. by exists i, o, x.
    + intros (i' & o' & x' & [= <-] & [= <-] & [= <-] & Hpos & Hle). done.
  - split; [by intros [_ ?] | by intros (i' & o' & x' & _ & _ & ? & _)].
  - split; [by intros [_ ?] | by intros (i' & o' & x' & _ & ? & _)].
  - split; [by intros [_ ?] | by intros (i' & o' & x' & _ & ? & _)].
Qed.

Lemma elem_of_matching_rows db threshold row :
  row ∈ matching_rows db threshold
  ↔ ∃ r s, r ∈ runs_table db ∧ s ∈ steps_table db
           ∧ join_on r s = true ∧ where_clause threshold s = true
           ∧ row = select_row r s.
Proof.
  unfold matching_rows. rewrite list_elem_of_bind. split.
  - intros (r & Hrow & Hr). apply list_elem_of_bind in Hrow as (s & Hrow & Hs).
    apply list_elem_of_singleton in Hrow.
    apply list_elem_of_In, List.filter_In in Hs as [Hs Hc].
    apply andb_prop in Hc as [Hj Hw]. apply list_elem_of_In in Hs.
    by exists r, s.
  - intros (r & s & Hr & Hs & Hj & Hw & ->). exists r. split; [|done].
    apply list_elem_of_bind. exists s. split; [by apply list_elem_of_singleton|].
    apply list_elem_of_In, List.filter_In. rewrite Hj, Hw.
    split; [by apply list_elem_of_In|done].
Qed.

Section Query.

Context (query_error : option Threshold → option string).
Context (float8_in : Json → JsNum).

(** C4 (amended). [POST /runs/query] sends one query to the store and
    answers 500 with the message when the store raises. Otherwise, with a
    [minEliminationRate] that is a number, it answers 200 with the first
    100 rows of the matching steps ordered by elimination rate, highest
    first; a row matches when it joins a run and a step of that run whose
    [candidates_in] and [candidates_out] are both present, with
    [candidates_in > 0] and a rate at least the threshold, where the rate
    is computed in double precision, [candidates_out / candidates_in]
    rounded, then its difference from 1 rounded, and two numbers compare
    as their values do; the row carries the identifying fields of the run
    and that rate. A [minEliminationRate] that is [null] matches no row;
    one that is neither [null] nor a number counts as the number the
    store reads from it. Without [minEliminationRate] the answer is the
    first 50 runs ordered by start time, latest first. *)
Theorem elimination_query db filter :
  let res := post_runs_query query_error float8_in db filter in
  match query_error (minEliminationRate filter) with
  | Some msg =>
      res = {| query_status := 500; success := false;
               query_data := QueryFailed msg |}
  | None =>
      query_status res = 200 ∧ success res = true
      ∧ match minEliminationRate filter with
        | Some t =>
            ∃ ordered,
              query_data res = StepRows (take 100 ordered)
              ∧ ordered ≡ₚ matching_rows db (bound float8_in t)
              ∧ StronglySorted rate_desc ordered
              ∧ (t = Null → ordered = [])
              ∧ (∀ row,
                   row ∈ ordered
                   ↔ ∃ r s k i o x,
                       r ∈ runs_table db ∧ s ∈ steps_table db
                       ∧ r_id r = Some k ∧ s_run_id s = Some k
                       ∧ s_candidates_in s = Some i
                       ∧ s_candidates_out s = Some o
                       ∧ 0 < i
                       ∧ match t with
                         | Null => False
                         | Number y => x = y
                         | NotANumber v => x = float8_in v
                         end
                       ∧ float8_le x (sub (of_Z 1) (div (of_Z o) (of_Z i)))
                         = true
                       ∧ row
                         = {| e_run_id := r_id r;
                              e_pipeline_name := r_pipeline_name r;
                              e_started_at := r_started_at r;
                              e_step_name := s_step_name s;
                              e_step_type := s_step_type s;
                              e_candidates_in := Some i;
                              e_candidates_out := Some o;
                              elimination_rate :=
                                Some (sub (of_Z 1)
                                          (div (of_Z o) (of_Z i)));
                              e_filters_applied := s_filters_applied s |})
              ∧ (∀ x y, is_number x = true → is_number y = true →
                        float8_le x y = true ↔ (value x <= value y)%Q)
        | None =>
            ∃ ordered,
              query_data res = RunRows (take 50 ordered)
              ∧ ordered ≡ₚ runs_table db
              ∧ StronglySorted started_desc ordered
        end
  end.
Proof.
  intros res. subst res. unfold post_runs_query.
  destruct (query_error (minEliminationRate filter)) as [msg|]; [done|].
  destruct (minEliminationRate filter) as [t|]; simpl;
    split_and!; try done.
  - exists (merge_sort rate_desc (matching_rows db (bound float8_in t))).
    assert (Hmem : ∀ row,
      row ∈ merge_sort rate_desc (matching_rows db (bound float8_in t))
      ↔ ∃ r s k i o x,
          r ∈ runs_table db ∧ s ∈ steps_table db
          ∧ r_id r = Some k ∧ s_run_id s = Some k
          ∧ s_candidates_in s = Some i ∧ s_candidates_out s = Some o
          ∧ 0 < i
          ∧ match t with
            | Null => False
            | Number y => x = y
            | NotANumber v => x = float8_in v
            end
          ∧ float8_le x (sub (of_Z 1) (div (of_Z o) (of_Z i))) = true
          ∧ row
            = {| e_run_id := r_id r;
                 e_pipeline_name := r_pipeline_name r;
                 e_started_at := r_started_at r;
                 e_step_name := s_step_name s;
                 e_step_type := s_step_type s;
                 e_candidates_in := Some i;
                 e_candidates_out := Some o;
                 elimination_rate :=
                   Some (sub (of_Z 1) (div (of_Z o) (of_Z i)));
                 e_filters_applied := s_filters_applied s |}).
    { intros row. rewrite merge_sort_Permutation, elem_of_matching_rows.
      split.
      - intros (r & s & Hr & Hs & Hj & Hw & ->).
        apply join_on_spec in Hj as (k & Hk1 & Hk2).
        apply where_clause_spec in Hw as (i & o & x & Hi & Ho & Hx & Hpos & Hle).
        exists r, s, k, i, o, x. split_and!; try done.
        + destruct t; simpl in Hx; congruence.
        + unfold select_row, rate_of. rewrite Hi, Ho.
          destruct (Z.eqb_spec i 0); [lia|done].
      - intros (r & s & k & i & o & x & Hr & Hs & Hk1 & Hk2 & Hi & Ho & Hpos
                & Hx & Hle & ->).
        exists r, s. split_and!; try done.
        + apply join_on_spec. eauto.
        + apply where_clause_spec. exists i, o, x. split_and!; try done.
          destruct t; simpl; [done | by subst | by subst].
        + unfold select_row, rate_of. rewrite Hi, Ho.
          destruct (Z.eqb_spec i 0); [lia|done]. }
    split_and!; [done | apply merge_sort_Permutation
                | apply (StronglySorted_merge_sort _) | | done
                | apply float8_le_numbers].
    intros ->. destruct (merge_sort _ _) as [|row l] eqn:E; [done|].
    assert (Hin : row ∈ row :: l) by by left.
    apply Hmem in Hin
      as (r & s & k & i & o & x & _ & _ & _ & _ & _ & _ & _ & [] & _).
  - exists (merge_sort started_desc (runs_table db)).
    split_and!; [done | apply merge_sort_Permutation
                | apply (StronglySorted_merge_sort _)].
Qed.

End Query.

(** ** Instances of the ingestion on the schema *)

Lemma schema_accepts_control message other_error :
  (∀ t q, is_insert q = false → other_error t q = None) →
  control_accepted (schema_refuses message other_error).
Proof.
  intros Hquiet t q Hq. unfold schema_refuses. rewrite Hquiet by done.
  by destruct q.
Qed.

Example ingest_accepted :
  let out := post_runs None (schema_refuses plain_message no_other_error)
                       empty_db (one_run one_candidate) in
  out.2 = Some {| http_status := 201;
                  body := Recorded "Run trace recorded successfully"
                                   (id (one_run one_candidate)) |}
  ∧ length (runs_table (committed out.1)) = 1%nat
  ∧ length (steps_table (committed out.1)) = 1%nat
  ∧ length (candidates_table (committed out.1)) = 1%nat
  ∧ issued out.1
    = [BEGIN; InsertRun (run_row (one_run one_candidate));
       InsertStep (step_row (one_run one_candidate) (one_step one_candidate));
       InsertCandidate (candidate_row (one_step one_candidate) one_candidate);
       COMMIT].
Proof. by vm_compute. Qed.

(** A second delivery of the same run violates the primary key. *)
Example ingest_duplicate :
  let db := committed (post_runs None
                         (schema_refuses plain_message no_other_error)
                         empty_db (one_run one_candidate)).1 in
  let out := post_runs None (schema_refuses plain_message no_other_error)
                       db (one_run one_candidate) in
  committed out.1 = db
  ∧ out.2 = Some {| http_status := 500;
                    body := Failed "duplicate key value violates unique constraint" |}.
Proof. by vm_compute. Qed.

(** The last insert is refused (a candidate without status): the run and
    the step inserted before it are not committed either. *)
Example ingest_refused_late :
  let bad := {| data := Some (JStr "charger"); status := None;
                score := None; reason := None; rejectionReason := None;
                rejectionFilter := None |} in
  let out := post_runs None (schema_refuses plain_message no_other_error)
                       empty_db (one_run bad) in
  committed out.1 = empty_db
  ∧ out.2 = Some {| http_status := 500;
                    body := Failed "null value violates not-null constraint" |}
  ∧ issued out.1
    = [BEGIN; InsertRun (run_row (one_run bad));
       InsertStep (step_row (one_run bad) (one_step bad));
       InsertCandidate (candidate_row (one_step bad) bad);
       ROLLBACK].
Proof. by vm_compute. Qed.

(** The connection is lost once the transaction is open: the first
    insert is refused and so is the [ROLLBACK] of the [catch] block; no
    row is committed and the handler sends no response. *)
Example ingest_on_lost_connection :
  let out := post_runs None lost_after_begin empty_db
                       (one_run one_candidate) in
  committed out.1 = empty_db
  ∧ out.2 = None
  ∧ issued out.1
    = [BEGIN; InsertRun (run_row (one_run one_candidate)); ROLLBACK].
Proof. by vm_compute. Qed.

(** When the pool hands out no connection there is no response either. *)
Example ingest_without_connection :
  post_runs (Some "timeout exceeded when trying to connect")
            (schema_refuses plain_message no_other_error) empty_db
            (one_run one_candidate)
  = (connect empty_db, None).
Proof. reflexivity. Qed.

Lemma ingestion_all_or_nothing_witness :
  @None string = None
  ∧ control_accepted (schema_refuses plain_message no_other_error)
  ∧ post_runs None (schema_refuses plain_message no_other_error) empty_db
              (one_run one_candidate)
    = ({| committed :=
            {| runs_table := [run_row (one_run one_candidate)];
               steps_table :=
                 [step_row (one_run one_candidate) (one_step one_candidate)];
               candidates_table :=
                 [candidate_row (one_step one_candidate) one_candidate] |};
          transaction := None;
          issued :=
            [BEGIN; InsertRun (run_row (one_run one_candidate));
             InsertStep (step_row (one_run one_candidate)
                                  (one_step one_candidate));
             InsertCandidate (candidate_row (one_step one_candidate)
                                            one_candidate);
             COMMIT] |},
       Some {| http_status := 201;
               body := Recorded "Run trace recorded successfully"
                                (id (one_run one_candidate)) |}).
Proof.
  assert (Hctl : control_accepted
                   (schema_refuses plain_message no_other_error))
    by by apply schema_accepts_control.
  split_and!; [done | done |].
  exact (ingestion_all_or_nothing None
           (schema_refuses plain_message no_other_error) empty_db
           (one_run one_candidate) eq_refl Hctl).
Defined.

(** C2, as stated, fails: the steps are inserted in the order of the
    payload's array, not in the order of their index. A payload that
    lists the step with index 1 before the step with index 0 is accepted,
    and the step with index 1 is inserted first. *)
Lemma steps_are_inserted_in_array_order :
  let out := post_runs None (schema_refuses plain_message no_other_error)
                       empty_db shuffled_run in
  http_status <$> out.2 = Some 201
  ∧ issued out.1
    = [BEGIN; InsertRun (run_row shuffled_run);
       InsertStep (step_row shuffled_run
                     (bare_step "6f1b2c3d-0002-4000-8000-00000000b001" 1));
       InsertStep (step_row shuffled_run
                     (bare_step "6f1b2c3d-0002-4000-8000-00000000b000" 0));
       COMMIT]
  ∧ s_step_index <$> steps_table (committed out.1) = [Some 1; Some 0].
Proof. by vm_compute. Qed.

(** ** Instances of the query *)

Example query_scenario :
  match query_data
          (post_runs_query answers_numbers reads_no_text scenario_db
             (with_threshold (Some (Number (decimal 9 10))))) with
  | StepRows rows =>
      e_step_name <$> rows = [Some "filter_rating"; Some "filter_price"]
      ∧ elimination_rate <$> rows
        = [Some (sub (of_Z 1) (decimal 30 450)); Some (decimal 91 100)]
  | _ => False
  end.
Proof. by vm_compute. Qed.

Example query_recent_runs :
  match query_data
          (post_runs_query answers_numbers reads_no_text scenario_db
             (with_threshold None)) with
  | RunRows rows => r_id <$> rows = [Some run_2; Some run_3; Some run_1]
  | _ => False
  end.
Proof. by vm_compute. Qed.

(** [null] is not [undefined]: the elimination-rate query is sent with a
    [NULL] threshold and matches nothing. *)
Example query_with_null_threshold :
  post_runs_query answers_numbers reads_no_text scenario_db
                  (with_threshold (Some Null))
  = {| query_status := 200; success := true; query_data := StepRows [] |}.
Proof. by vm_compute. Qed.

Example query_with_unreadable_threshold :
  post_runs_query answers_numbers reads_no_text scenario_db
                  (with_threshold (Some (NotANumber (JBool true))))
  = {| query_status := 500; success := false;
       query_data :=
         QueryFailed "invalid input syntax for type double precision" |}.
Proof. by vm_compute. Qed.

(** C4, as stated, fails: a step that takes 10 candidates to 9 has the
    elimination rate [1 − 9/10 = 1/10]; the store computes
    [0.09999999999999998] for it, and the step is returned neither at the
    threshold written [0.1] nor at the threshold written
    [0.09999999999999999], a double below [1/10]. *)
Lemma rate_equal_to_threshold_is_dropped :
  let answer t :=
    post_runs_query answers_numbers reads_no_text ten_to_nine_db
                    (with_threshold (Some (Number t))) in
  let below := S754_finite false 7205759403792793 (-56) in
  answer (decimal 1 10)
  = {| query_status := 200; success := true; query_data := StepRows [] |}
  ∧ answer below
    = {| query_status := 200; success := true; query_data := StepRows [] |}
  ∧ (value below <= 1 - 9 / 10)%Q
  ∧ (1 # 10 <= 1 - 9 / 10)%Q
  ∧ float8_rate 10 9 = S754_finite false 7205759403792792 (-56).
Proof. by vm_compute. Qed.

End ApiSpec.

(** * Further properties of the trace builder *)

Module SdkMore.

Import SDK.

Section Builder.

Context {Value : Type} `{EqDecision Value}.
Context (VString : string → Value).

Implicit Types (s : Step (Value := Value)) (cs before after : list Value).
Implicit Types (r : Run (Value := Value)) (op : StepOp (Value := Value)).
Implicit Types (ops : list (StepOp (Value := Value))).

(** ** Sampling *)

(** X1. Of the sampling configuration only [sampleRate] is read to any
    effect: two configurations with the same rate sample alike, whatever
    [keepAllOutputs] and [keepThresholdCandidates] say. *)
Theorem sampling_reads_rate_only (c1 c2 : SamplingConfig) cs st f :
  sampleRate c1 = sampleRate c2 →
  sampleCandidates c1 cs st f = sampleCandidates c2 cs st f.
Proof.
  intros Hrate. unfold sampleCandidates. rewrite Hrate.
  destruct st; repeat case_bool_decide; try done;
    by destruct (keepAllOutputs c1), (keepAllOutputs c2).
Qed.

Lemma slice0_prefix {A} (l : list A) (e : JsNum) : slice0 l e `prefix_of` l.
Proof. unfold slice0. eexists. symmetry. apply take_drop. Qed.

(** X2. Whatever the configuration (the rate may be [NaN] or infinite),
    the disposition and the list, the retained records are, in order, a
    prefix of the list, all with the given disposition; only the
    disposition [rejected] can retain fewer than all, and only it carries
    the filter name. *)
Theorem sample_is_prefix_at_any_rate (c : SamplingConfig) cs st f :
  let kept := sampleCandidates c cs st f in
  (data <$> kept) `prefix_of` cs
  ∧ Forall (λ k, status k = st) kept
  ∧ match st with
    | rejected => Forall (λ k, rejectionFilter k = f) kept
    | _ => data <$> kept = cs
           ∧ Forall (λ k, rejectionFilter k = None) kept
    end.
Proof.
  intros kept. subst kept.
  assert (Hid : ∀ (g : Value → CandidateData) (l : list Value),
            (∀ x, data (g x) = x) → data <$> (g <$> l) = l).
  { intros g l Hg. induction l as [|x l IH]; [done|].
    by rewrite !fmap_cons, Hg, IH. }
  destruct st.
  - rewrite SdkSpec.sample_accepted. rewrite Hid by done.
    split_and!; try done; by apply Forall_fmap, Forall_true.
  - unfold sampleCandidates. repeat case_bool_decide; try done.
    simpl. rewrite Hid by done.
    split_and!; [apply slice0_prefix | |]; by apply Forall_fmap, Forall_true.
  - unfold sampleCandidates. repeat case_bool_decide; try done.
    simpl. rewrite Hid by done.
    split_and!; try done; by apply Forall_fmap, Forall_true.
Qed.

(** ** Filtering with a predicate *)

Lemma includes_filter (p : Value → bool) before c :
  c ∈ before → includes (List.filter p before) c = p c.
Proof.
  intros Hc. unfold includes. destruct (p c) eqn:Hp.
  - apply bool_decide_eq_true_2, list_elem_of_In, List.filter_In.
    split; [by apply list_elem_of_In | done].
  - apply bool_decide_eq_false_2. intros Hin.
    apply list_elem_of_In, List.filter_In in Hin as [_ Hin]. congruence.
Qed.

Lemma filter_split_length {A} (p : A → bool) (l : list A) :
  (length (List.filter (λ c, negb (p c)) l) + length (List.filter p l)
   = length l)%nat.
Proof.
  induction l as [|x l IH]; simpl; [done|].
  destruct (p x); simpl; lia.
Qed.

(** X3. When the after-sequence is what [Array.prototype.filter] returns
    on the before-sequence for a predicate [p], the candidates sampled as
    rejected are exactly those that fail [p], rejected and surviving
    candidates add up to the before-sequence, and the two counts the step
    records differ by the number of rejected candidates. *)
Theorem rejected_of_array_filter (p : Value → bool) before s name ty params :
  let after := List.filter p before in
  let s' := recordFiltering before after name ty params s in
  rejected_of before after = List.filter (λ c, negb (p c)) before
  ∧ (length (rejected_of before after) + length after = length before)%nat
  ∧ candidatesIn s' = Some (Z.of_nat (length before))
  ∧ candidatesOut s'
    = Some (Z.of_nat (length before)
            - Z.of_nat (length (rejected_of before after)))
  ∧ counts_ok s'.
Proof.
  intros after s'.
  assert (Hrej : rejected_of before after
                 = List.filter (λ c, negb (p c)) before).
  { unfold rejected_of. apply List.filter_ext_in. intros c Hc.
    subst after. rewrite includes_filter; [done|]. by apply list_elem_of_In. }
  pose proof (filter_split_length p before) as Hlen. fold after in Hlen.
  rewrite <- Hrej in Hlen.
  destruct (SdkSpec.recordFiltering_counts s before after name ty params)
    as [Hin Hout].
  fold s' in Hin, Hout.
  split_and!; try done.
  - rewrite Hout. f_equal. lia.
  - unfold counts_ok. rewrite Hin, Hout. lia.
Qed.

(** X4. Membership is by identity: when the after-sequence holds no
    element of the before-sequence (copies, say), every candidate of the
    before-sequence is sampled as rejected. *)
Theorem copies_reject_everything before after :
  Forall (λ c, c ∉ before) after →
  rejected_of before after = before.
Proof.
  intros Hcopies. unfold rejected_of.
  rewrite <- (List.filter_ext_in (λ _, true)).
  - induction before as [|x l IH]; simpl; [done|]. f_equal.
    apply IH. eapply Forall_impl; [done|]. simpl. intros c Hc Hin.
    apply Hc. by right.
  - intros c Hc. symmetry. apply negb_true_iff, bool_decide_eq_false_2.
    intros Hin. rewrite Forall_forall in Hcopies.
    by apply (Hcopies c Hin), list_elem_of_In.
Qed.

(** ** Sequences of recording operations *)

Lemma op_appends s op :
  same_identity s (apply_op s op)
  ∧ candidates s `prefix_of` candidates (apply_op s op)
  ∧ filtersApplied (apply_op s op)
    = filtersApplied s ++ (if is_filtering op
                           then drop (length (filtersApplied s))
                                     (filtersApplied (apply_op s op))
                           else [])
  ∧ (length (filtersApplied (apply_op s op))
     = length (filtersApplied s) + (if is_filtering op then 1 else 0))%nat
  ∧ stepType (apply_op s op) = (if is_decision op then llm else stepType s)
  ∧ step_completedAt (apply_op s op)
    = match op with
      | RecordOutput now _ => Some now
      | _ => step_completedAt s
      end.
Proof.
  unfold same_identity.
  destruct op as [v | now v | cs st | b a n t q | txt [k|] | m]; simpl;
    try (split_and!; try done; by rewrite ?app_nil_r).
  - unfold recordCandidates. case_bool_decide; simpl;
      (split_and!; try done; [by apply prefix_app_r | by rewrite app_nil_r]).
  - split_and!; try done.
    + rewrite <- app_assoc. by apply prefix_app_r.
    + by rewrite drop_app_length.
    + rewrite length_app. simpl. lia.
Qed.

(** X5. Recording is append-only: whatever sequence of recording
    operations is applied to a step, the candidates and the filter records
    it held are kept, in place, at the head of the new lists, and its id,
    run id, name, index, start time and sampling configuration are
    unchanged. *)
Theorem recording_is_append_only s ops :
  let s' := apply_ops s ops in
  candidates s `prefix_of` candidates s'
  ∧ filtersApplied s `prefix_of` filtersApplied s'
  ∧ step_id s' = step_id s ∧ runId s' = runId s ∧ stepName s' = stepName s
  ∧ stepIndex s' = stepIndex s ∧ step_startedAt s' = step_startedAt s
  ∧ step_sampling s' = step_sampling s.
Proof.
  simpl. revert s. induction ops as [|op ops IH]; intros s; [done|].
  simpl. specialize (IH (apply_op s op)).
  destruct (op_appends s op)
    as ((E1 & E2 & E3 & E4 & E5 & E6) & Hc & Hf & _).
  destruct IH as (Ic & If & I1 & I2 & I3 & I4 & I5 & I6).
  split_and!; try congruence.
  - by etrans.
  - etrans; [|done]. rewrite Hf. by apply prefix_app_r.
Qed.

(** X6. Whatever other operations come in between, a step holds one
    filter record per call of [recordFiltering] made on it. *)
Theorem one_filter_record_per_filtering s ops :
  length (filtersApplied (apply_ops s ops))
  = (length (filtersApplied s) + length (List.filter is_filtering ops))%nat.
Proof.
  unfold apply_ops.
  revert s. induction ops as [|op ops IH]; intros s; simpl; [lia|].
  rewrite IH.
  destruct (op_appends s op) as (_ & _ & _ & -> & _).
  destruct (is_filtering op); simpl; lia.
Qed.

(** X7. The type of a step changes in one way only: it is [llm] as soon
    as [recordLLMDecision] was called on it, and the type it was created
    with otherwise. *)
Theorem type_is_llm_after_a_decision s ops :
  stepType (apply_ops s ops)
  = if existsb is_decision ops then llm else stepType s.
Proof.
  unfold apply_ops.
  revert s. induction ops as [|op ops IH]; intros s; simpl; [done|].
  rewrite IH.
  destruct (op_appends s op) as (_ & _ & _ & _ & -> & _).
  destruct (is_decision op); simpl; [|done].
  by destruct (existsb is_decision ops).
Qed.

Lemma completedAt_after_ops s ops :
  step_completedAt (apply_ops s ops)
  = match last_output ops with
    | Some t => Some t
    | None => step_completedAt s
    end.
Proof.
  induction ops as [|op ops IH] using rev_ind; [done|].
  unfold apply_ops, last_output in *. rewrite !foldl_snoc.
  destruct (op_appends (foldl apply_op s ops) op) as (_ & _ & _ & _ & _ & ->).
  by destruct op.
Qed.

(** X8. The duration a step reports in its JSON runs from its creation to
    the last call of [recordOutput]; calls made in between or afterwards
    do not change it. *)
Theorem duration_is_to_last_output s ops :
  json_durationMs (Step_toJSON (apply_ops s ops))
  = match last_output ops with
    | Some t => Some (t - step_startedAt s)
    | None => json_durationMs (Step_toJSON s)
    end.
Proof.
  unfold Step_toJSON. simpl. rewrite completedAt_after_ops.
  destruct (recording_is_append_only s ops) as (_ & _ & _ & _ & _ & _ & -> & _).
  by destruct (last_output ops).
Qed.

(** X9. [setMetadata] merges: two calls amount to one call with the union
    in which the later map wins, and a key is read from the latest map
    that has it, falling back to what the step held before. *)
Theorem setMetadata_merges s (m1 m2 : gmap string Value) :
  setMetadata m2 (setMetadata m1 s) = setMetadata (m2 ∪ m1) s
  ∧ ∃ merged,
      step_metadata (setMetadata m2 (setMetadata m1 s)) = Some merged
      ∧ ∀ key, merged !! key
               = match m2 !! key, m1 !! key with
                 | Some v, _ => Some v
                 | None, Some v => Some v
                 | None, None => default ∅ (step_metadata s) !! key
                 end.
Proof.
  split.
  - unfold setMetadata, with_metadata. simpl. by rewrite (assoc_L (∪)).
  - eexists. split; [done|]. intros key. simpl.
    rewrite !lookup_union.
    by destruct (m2 !! key), (m1 !! key),
                (default ∅ (step_metadata s) !! key).
Qed.

(** ** Runs *)

Section Transport.

Context (stringify : RunJSON (Value := Value) → Error + string).
Context (network : string → string → FetchOutcome).

Implicit Types (calls : list (RunOp (Value := Value))).

Lemma run_op_keeps r (o : RunOp) :
  let r' := run_op VString stringify network r o in
  run_id r' = run_id r ∧ run_sampling r' = run_sampling r
  ∧ apiUrl r' = apiUrl r ∧ pipelineName r' = pipelineName r
  ∧ run_startedAt r' = run_startedAt r
  ∧ length (steps r')
    = (length (steps r) + (if is_addStep o then 1 else 0))%nat
  ∧ (well_numbered r → well_numbered r').
Proof.
  unfold well_numbered.
  destruct o as [uuid now name ty | handle op | now output | now error]; simpl.
  - split_and!; try done.
    + rewrite length_app. simpl. lia.
    + intros [Hidx Hall]. rewrite fmap_app, length_app, Hidx. simpl.
      rewrite Nat.add_1_r, seq_S. split; [done|].
      apply Forall_app. split; [done|]. by constructor.
  - split_and!; try done.
    + rewrite length_alter. lia.
    + intros [Hidx Hall]. rewrite length_alter, <- Hidx. split.
      * rewrite (list_fmap_alter stepIndex _ id).
        -- by apply list_alter_id.
        -- apply Forall_true. intros s.
           by destruct (op_appends s op) as ((_ & _ & _ & -> & _) & _).
      * apply Forall_alter; [done|]. intros s _ [H1 H2].
        destruct (op_appends s op) as ((_ & -> & _ & _ & _ & ->) & _).
        done.
  - unfold complete, awaited. destruct (send _ _ _) as [evs [e|d]]; simpl;
      (split_and!; try done; lia).
  - unfold fail, awaited. destruct (send _ _ _) as [evs [e|d]]; simpl;
      (split_and!; try done; lia).
Qed.

(** X10. For a run started from an SDK object, after any sequence of
    calls: the steps are numbered [0, 1, 2, ...] in the order they were
    added, there is one step per call of [addStep], each step names the
    run as its owner and samples with the configuration given to the SDK
    constructor (the default one when none was given), and the run still
    has the id and the URL it started with. *)
Theorem started_run_stays_well_formed (config : RunConfig) uuid now name
    (input : Value) metadata calls :
  let sdk := new_XRaySDK config in
  let r := run_ops VString stringify network
                   (startRun sdk uuid now name input metadata) calls in
  stepIndex <$> steps r = seq 0 (length (steps r))
  ∧ length (steps r) = length (List.filter is_addStep calls)
  ∧ Forall (λ s, runId s = uuid
                 ∧ step_sampling s
                   = default default_sampling (config_sampling config))
           (steps r)
  ∧ run_id r = uuid
  ∧ apiUrl r = sdk_apiUrl sdk.
Proof.
  intros sdk r.
  assert (Hgen : ∀ r0, well_numbered r0 →
    let r1 := run_ops VString stringify network r0 calls in
    well_numbered r1 ∧ run_id r1 = run_id r0
    ∧ run_sampling r1 = run_sampling r0 ∧ apiUrl r1 = apiUrl r0
    ∧ length (steps r1)
      = (length (steps r0) + length (List.filter is_addStep calls))%nat).
  { induction calls as [|o calls IH]; intros r0 H0; simpl.
    - split_and!; first [done | lia].
    - destruct (run_op_keeps r0 o) as (E1 & E2 & E3 & _ & _ & E4 & Hk).
      destruct (IH _ (Hk H0)) as (I0 & I1 & I2 & I3 & I4).
      unfold run_ops in *. split_and!; try congruence.
      rewrite I4, E4. destruct (is_addStep o); simpl; lia. }
  destruct (Hgen (startRun sdk uuid now name input metadata))
    as ([Hidx Hall] & E1 & E2 & E3 & E4); [by split|].
  fold r in Hidx, Hall, E1, E2, E3, E4. split_and!; try done.
  eapply Forall_impl; [done|]. simpl. intros s [-> ->].
  by rewrite E1, E2.
Qed.

End Transport.

End Builder.

Lemma sampling_reads_rate_only_witness :
  sampleRate default_sampling
  = sampleRate {| keepAllOutputs := false; keepThresholdCandidates := of_Z 0;
                  sampleRate := decimal 1 100 |}
  ∧ sampleCandidates default_sampling [Ref 1; Ref 2] accepted None
    = sampleCandidates
        {| keepAllOutputs := false; keepThresholdCandidates := of_Z 0;
           sampleRate := decimal 1 100 |} [Ref 1; Ref 2] accepted None.
Proof.
  split; [reflexivity|].
  apply (sampling_reads_rate_only default_sampling
           {| keepAllOutputs := false; keepThresholdCandidates := of_Z 0;
              sampleRate := decimal 1 100 |}).
  reflexivity.
Defined.

Lemma copies_reject_everything_witness :
  Forall (λ c, c ∉ [Ref 1; Ref 2]) [Ref 10]
  ∧ rejected_of [Ref 1; Ref 2] [Ref 10] = [Ref 1; Ref 2].
Proof.
  assert (H : Forall (λ c, c ∉ [Ref 1; Ref 2]) [Ref 10]).
  { repeat constructor. intros Hin. apply list_elem_of_In in Hin.
    simpl in Hin. by destruct Hin as [Hin|[Hin|[]]]. }
  split; [exact H|].
  exact (copies_reject_everything [Ref 1; Ref 2] [Ref 10] H).
Defined.

End SdkMore.

(** * Further properties of the routes *)

Module ApiMore.

Import API.

(** ** Ingestion, for any store *)

Section Ingestion.

Context (pool_error : option string).
Context (refuses : Db → Stmt → option string).

Implicit Types (c : Client) (t db : Db) (qs : list Stmt) (run : Run).

Lemma inserts_extend db qs :
  runs_table db `prefix_of` runs_table (foldl apply_insert db qs)
  ∧ steps_table db `prefix_of` steps_table (foldl apply_insert db qs)
  ∧ candidates_table db `prefix_of`
      candidates_table (foldl apply_insert db qs).
Proof.
  revert db. induction qs as [|q qs IH]; intros db; [done|].
  simpl. destruct (IH (apply_insert db q)) as (H1 & H2 & H3).
  destruct q; simpl in *; split_and!;
    first [done | by eapply prefix_app_l].
Qed.

(** Every refusal shows in the statements sent: they end with the
    [ROLLBACK] of the [catch] block. *)
Lemma after_refusal_cases db sent msg :
  let out := after_refusal refuses db sent msg in
  committed out.1 = db
  ∧ last (issued out.1) = Some ROLLBACK
  ∧ match out.2 with
    | Some res =>
        res = {| http_status := 500; body := Failed msg |}
        ∧ transaction out.1 = None
    | None => ∃ t, is_Some (refuses t ROLLBACK)
    end.
Proof.
  unfold after_refusal.
  destruct (refuses _ ROLLBACK) as [m|] eqn:E; simpl;
    rewrite last_snoc; split_and!; try done.
  eexists. by rewrite E.
Qed.

(** X11. Whatever the payload, the pool and the store do, the handler of
    [POST /runs] commits all the rows of the payload or none, and the rows
    that were committed before the request are still there, unchanged and
    in place, at the head of each table. A response is 201, after
    [COMMIT] and with every row committed, or 500, after [ROLLBACK] and
    with none; either way no transaction is left open. The handler sends
    no response in two cases only, and commits nothing then: the pool
    handed out no connection, or the store refused the [ROLLBACK] of the
    [catch] block. *)
Theorem ingestion_keeps_stored_rows db run :
  let out := post_runs pool_error refuses db run in
  runs_table db `prefix_of` runs_table (committed out.1)
  ∧ steps_table db `prefix_of` steps_table (committed out.1)
  ∧ candidates_table db `prefix_of` candidates_table (committed out.1)
  ∧ match out.2 with
    | Some res =>
        transaction out.1 = None
        ∧ ((res = {| http_status := 201;
                     body := Recorded "Run trace recorded successfully"
                                      (id run) |}
            ∧ committed out.1 = foldl apply_insert db (inserts_of run)
            ∧ issued out.1 = BEGIN :: inserts_of run ++ [COMMIT])
           ∨ (http_status res = 500
              ∧ committed out.1 = db
              ∧ last (issued out.1) = Some ROLLBACK))
    | None =>
        committed out.1 = db
        ∧ (is_Some pool_error ∨ ∃ t, is_Some (refuses t ROLLBACK))
    end.
Proof.
  simpl. rewrite ApiSpec.post_runs_outcome.
  destruct pool_error as [e|].
  { simpl. split_and!; try reflexivity. left. by eexists. }
  destruct (first_refusal _ _ _) as [[sent msg]|]; simpl.
  - destruct (after_refusal_cases db sent msg) as (Hdb & Hlast & Hres).
    simpl in *. rewrite Hdb. split_and!; try reflexivity.
    destruct (after_refusal refuses db sent msg).2 as [res|].
    + destruct Hres as [-> Htx]. split; [done|]. by right.
    + split; [done|]. by right.
  - destruct (inserts_extend db (inserts_of run)) as (H1 & H2 & H3).
    split_and!; try done. by left.
Qed.

(** A property kept by every accepted statement holds after a sequence
    of statements that was accepted. *)
Lemma accepted_inserts_keep (P : Db → Prop) t qs :
  (∀ t' q, P t' → refuses t' q = None → P (apply_insert t' q)) →
  P t → first_refusal refuses t qs = None →
  P (foldl apply_insert t qs).
Proof.
  intros Hstep. revert t. induction qs as [|q qs IH]; intros t Ht Hno;
    simpl in *; [done|].
  destruct (refuses t q) eqn:Hq; [done|].
  destruct (first_refusal refuses (apply_insert t q) qs) as [[]|] eqn:E;
    [done|].
  apply IH; [by apply Hstep | done].
Qed.

(** A refusal comes with the message the store raised on one of the
    statements. *)
Lemma refusal_message t qs sent msg :
  first_refusal refuses t qs = Some (sent, msg) →
  ∃ q t', q ∈ qs ∧ refuses t' q = Some msg.
Proof.
  revert t sent. induction qs as [|q qs IH]; intros t sent; simpl; [done|].
  destruct (refuses t q) as [m|] eqn:Hq.
  - intros [= _ <-]. exists q, t. split; [by left|done].
  - destruct (first_refusal refuses (apply_insert t q) qs)
      as [[sent' m]|] eqn:E; [|done].
    intros [= _ <-]. destruct (IH _ _ E) as (q' & t' & Hin & Hq').
    exists q', t'. split; [by right|done].
Qed.

End Ingestion.

(** Two stores that decide alike on the statements of a list are refused
    alike on it. *)
Lemma first_refusal_ext (refuses refuses' : Db → Stmt → option string)
    (t : Db) (qs : list Stmt) :
  (∀ t' q, q ∈ qs → refuses t' q = refuses' t' q) →
  first_refusal refuses t qs = first_refusal refuses' t qs.
Proof.
  revert t. induction qs as [|q qs IH]; intros t Hext; simpl; [done|].
  rewrite <- (Hext t q) by by left.
  destruct (refuses t q); [done|].
  rewrite IH; [done|]. intros t' q' Hin. apply Hext. by right.
Qed.

(** ** Ingestion into the schema *)

Lemma or_false_ok (b : bool) : negb b = true ↔ b = false.
Proof. by destruct b. Qed.

Lemma constraints_accept_run db row :
  constraint_violated db (InsertRun row) = None
  ↔ run_row_ok row = true ∧ r_id row ∉ r_id <$> runs_table db.
Proof.
  unfold constraint_violated, run_row_ok, has_run. rewrite or_false_ok.
  destruct (_ || _); [by split; [|intros []]|].
  case_bool_decide; by split; [|intros []].
Qed.

Lemma constraints_accept_step db row :
  constraint_violated db (InsertStep row) = None
  ↔ step_row_ok row = true ∧ (s_id row ∉ s_id <$> steps_table db)
    ∧ s_run_id row ∈ r_id <$> runs_table db.
Proof.
  unfold constraint_violated, step_row_ok, has_step, has_run.
  rewrite or_false_ok.
  destruct (_ || _); [by split; [|intros []]|].
  repeat case_bool_decide; simpl; split; try done; by intros (? & ? & ?).
Qed.

Lemma constraints_accept_candidate db row :
  constraint_violated db (InsertCandidate row) = None
  ↔ candidate_row_ok row = true ∧ c_step_id row ∈ s_id <$> steps_table db.
Proof.
  unfold constraint_violated, candidate_row_ok, has_step.
  rewrite or_false_ok.
  destruct (_ || _); [by split; [|intros []]|].
  case_bool_decide; simpl; split; try done; by intros [? ?].
Qed.

Lemma constraints_keep_consistent db q :
  db_consistent db → constraint_violated db q = None →
  db_consistent (apply_insert db q).
Proof.
  intros (Hr & Hs & Hrok & Hsok & Hcok) Hq. unfold db_consistent.
  destruct q as [| | |row|row|row]; try done; simpl.
  - apply constraints_accept_run in Hq as [Hok Hnew].
    rewrite fmap_app. split_and!; try done.
    + apply NoDup_app. split_and!; [done| |apply NoDup_singleton].
      intros x Hx ->%list_elem_of_singleton. done.
    + apply Forall_app. split; [done|by constructor].
    + eapply Forall_impl; [done|]. simpl. intros s [? ?]. split; [done|].
      apply elem_of_app. by left.
  - apply constraints_accept_step in Hq as (Hok & Hnew & Hfk).
    rewrite fmap_app. split_and!; try done.
    + apply NoDup_app. split_and!; [done| |apply NoDup_singleton].
      intros x Hx ->%list_elem_of_singleton. done.
    + apply Forall_app. split; [done|by constructor].
    + eapply Forall_impl; [done|]. simpl. intros c [? ?]. split; [done|].
      apply elem_of_app. by left.
  - apply constraints_accept_candidate in Hq as (Hok & Hfk).
    split_and!; try done. apply Forall_app. split; [done|by constructor].
Qed.

Section Schema.

Context (pool_error : option string).
Context (message : Violation → Stmt → string).
Context (other_error : Db → Stmt → option string).

Local Abbreviation schema := (schema_refuses message other_error).
Local Abbreviation constraints := (schema_refuses message no_other_error).

Lemma schema_accepted db q :
  schema db q = None
  ↔ other_error db q = None ∧ constraint_violated db q = None.
Proof.
  unfold schema_refuses. destruct (other_error db q); [by split; [|intros []]|].
  destruct (constraint_violated db q); simpl; by split; [|intros []].
Qed.

Lemma constraints_accepted db q :
  constraints db q = None ↔ constraint_violated db q = None.
Proof.
  unfold schema_refuses, no_other_error.
  by destruct (constraint_violated db q).
Qed.

Lemma schema_keeps_consistent db q :
  db_consistent db → schema db q = None →
  db_consistent (apply_insert db q).
Proof.
  intros Hdb [_ Hq]%schema_accepted. by apply constraints_keep_consistent.
Qed.

(** X12. The constraints of the schema are an invariant of the ingestion
    route: on tables with unique primary keys, filled [NOT NULL] columns
    and foreign keys that resolve, every request, accepted or refused,
    commits tables that have these properties again. *)
Theorem ingestion_keeps_schema_constraints db run :
  db_consistent db →
  db_consistent (committed (post_runs pool_error schema db run).1).
Proof.
  intros Hdb. rewrite ApiSpec.post_runs_outcome.
  destruct pool_error as [e|]; [done|].
  destruct (first_refusal schema db (BEGIN :: inserts_of run ++ [COMMIT]))
    as [[sent msg]|] eqn:E.
  - by destruct (after_refusal_cases schema db sent msg) as (-> & _).
  - cbn [fst committed].
    assert (Hall : db_consistent
              (foldl apply_insert db (BEGIN :: inserts_of run ++ [COMMIT]))).
    { apply (accepted_inserts_keep schema db_consistent); [|done|done].
      intros t q. apply schema_keeps_consistent. }
    cbn [foldl apply_insert] in Hall. by rewrite foldl_snoc in Hall.
Qed.

Lemma candidates_accepted t step (cs : list Candidate) :
  step_id step ∈ s_id <$> steps_table t →
  Forall (λ c, candidate_row_ok (candidate_row step c) = true) cs →
  first_refusal constraints t (InsertCandidate ∘ candidate_row step <$> cs)
  = None.
Proof.
  intros Hstep Hcs. revert t Hstep.
  induction Hcs as [|c cs Hc _ IH]; intros t Hstep; [done|].
  rewrite fmap_cons. cbn [first_refusal].
  assert (Hacc : constraints t (InsertCandidate (candidate_row step c))
                 = None)
    by by apply constraints_accepted, constraints_accept_candidate.
  unfold compose at 1. rewrite Hacc. by rewrite IH.
Qed.

Lemma steps_accepted run (l : list Step) t :
  id run ∈ r_id <$> runs_table t →
  NoDup (step_id <$> l) →
  Forall (λ step,
     step_row_ok (step_row run step) = true
     ∧ (step_id step ∉ s_id <$> steps_table t)
     ∧ Forall (λ c, candidate_row_ok (candidate_row step c) = true)
              (listed_candidates step)) l →
  first_refusal constraints t
    (step ← l;
     InsertStep (step_row run step) ::
     (InsertCandidate ∘ candidate_row step <$> listed_candidates step))
  = None.
Proof.
  revert t. induction l as [|step l IH]; intros t Hrun Hnd Hall; [done|].
  rewrite fmap_cons in Hnd. apply NoDup_cons in Hnd as [Hhead Hnd].
  apply Forall_cons in Hall as [(Hok & Hnew & Hcs) Hall].
  rewrite bind_cons, ApiSpec.first_refusal_app.
  cbn [first_refusal].
  assert (Hacc : constraints t (InsertStep (step_row run step)) = None)
    by by apply constraints_accepted, constraints_accept_step.
  rewrite Hacc. rewrite candidates_accepted; [| |done].
  - cbn [foldl]. rewrite ApiSpec.candidate_rows_added.
    rewrite IH; [done| done | done |].
    apply Forall_forall. intros step' Hin'.
    rewrite Forall_forall in Hall.
    destruct (Hall step' Hin') as (Hok' & Hnew' & Hcs').
    split_and!; try done.
    simpl. rewrite fmap_app.
    intros [Hin|Hin%list_elem_of_singleton]%elem_of_app; [done|].
    apply Hhead. simpl in Hin. rewrite <- Hin.
    by apply list_elem_of_fmap_2.
  - simpl. rewrite fmap_app. apply elem_of_app. right.
    by apply list_elem_of_singleton.
Qed.

Lemma first_refusal_app_inv (refuses : Db → Stmt → option string) t qs1 qs2 :
  first_refusal refuses t (qs1 ++ qs2) = None →
  first_refusal refuses t qs1 = None
  ∧ first_refusal refuses (foldl apply_insert t qs1) qs2 = None.
Proof.
  rewrite ApiSpec.first_refusal_app.
  destruct (first_refusal refuses t qs1) as [[]|]; [done|].
  by destruct (first_refusal refuses _ qs2) as [[]|].
Qed.

Lemma candidates_accepted_inv t step (cs : list Candidate) :
  first_refusal constraints t (InsertCandidate ∘ candidate_row step <$> cs)
  = None →
  Forall (λ c, candidate_row_ok (candidate_row step c) = true) cs.
Proof.
  revert t. induction cs as [|c cs IH]; intros t Hno; [done|].
  rewrite fmap_cons in Hno. cbn [first_refusal] in Hno.
  unfold compose at 1 in Hno.
  destruct (constraints t (InsertCandidate (candidate_row step c)))
    eqn:Hacc; [done|].
  apply constraints_accepted, constraints_accept_candidate in Hacc
    as [Hok _].
  destruct (first_refusal _ _ _) as [[]|] eqn:E; [done|].
  constructor; [done|]. by eapply IH.
Qed.

Lemma steps_accepted_inv run (l : list Step) t :
  first_refusal constraints t
    (step ← l;
     InsertStep (step_row run step) ::
     (InsertCandidate ∘ candidate_row step <$> listed_candidates step))
  = None →
  NoDup (step_id <$> l)
  ∧ Forall (λ step,
       step_row_ok (step_row run step) = true
       ∧ (step_id step ∉ s_id <$> steps_table t)
       ∧ Forall (λ c, candidate_row_ok (candidate_row step c) = true)
                (listed_candidates step)) l.
Proof.
  revert t. induction l as [|step l IH]; intros t Hno.
  { split; [apply NoDup_nil_2 | done]. }
  rewrite bind_cons in Hno.
  apply first_refusal_app_inv in Hno as [Hhead Hrest].
  cbn [first_refusal] in Hhead.
  destruct (constraints t (InsertStep (step_row run step))) eqn:Hacc;
    [done|].
  apply constraints_accepted, constraints_accept_step in Hacc
    as (Hok & Hnew & _).
  destruct (first_refusal _ _ _) as [[]|] eqn:Hcs in Hhead; [done|].
  apply candidates_accepted_inv in Hcs.
  cbn [foldl] in Hrest. rewrite ApiSpec.candidate_rows_added in Hrest.
  apply IH in Hrest as [Hnd Hall]. simpl in Hall.
  assert (Hfresh : Forall (λ step', step_id step' ≠ step_id step
                     ∧ step_id step' ∉ s_id <$> steps_table t) l).
  { eapply Forall_impl; [exact Hall|]. simpl. intros step' (_ & Hnot & _).
    rewrite fmap_app in Hnot. split.
    - intros Heq. apply Hnot, elem_of_app. right.
      by apply list_elem_of_singleton.
    - intros Hin. apply Hnot, elem_of_app. by left. }
  split.
  - rewrite fmap_cons. apply NoDup_cons. split; [|done].
    intros (step' & Heq & Hin)%list_elem_of_fmap.
    rewrite Forall_forall in Hfresh. by destruct (Hfresh step' Hin).
  - constructor; [done|].
    rewrite Forall_forall in Hall, Hfresh. apply Forall_forall.
    intros step' Hin. destruct (Hall step' Hin) as (? & _ & ?).
    destruct (Hfresh step' Hin) as [_ ?]. done.
Qed.

Lemma payload_ok_iff_accepted db run :
  payload_ok db run
  ↔ first_refusal constraints db (inserts_of run) = None.
Proof.
  unfold payload_ok, inserts_of. cbn [first_refusal]. split.
  - intros (Hok & Hnew & Hnd & Hall).
    assert (Hrun : constraints db (InsertRun (run_row run)) = None)
      by by apply constraints_accepted, constraints_accept_run.
    rewrite Hrun. rewrite steps_accepted; try done.
    simpl. rewrite fmap_app. apply elem_of_app. right.
    by apply list_elem_of_singleton.
  - intros Hno.
    destruct (constraints db (InsertRun (run_row run))) eqn:Hrun;
      [done|].
    apply constraints_accepted, constraints_accept_run in Hrun
      as [Hok Hnew].
    destruct (first_refusal _ _ _) as [[]|] eqn:Hsteps in Hno; [done|].
    apply steps_accepted_inv in Hsteps as [Hnd Hall]. done.
Qed.

(** On the statements of a payload that fits, the store decides by the
    constraints alone. *)
Lemma fits_constraints run t q :
  fits other_error run →
  q ∈ BEGIN :: COMMIT :: ROLLBACK :: inserts_of run →
  schema t q = constraints t q.
Proof.
  intros Hfits Hq. unfold schema_refuses. by rewrite (Hfits t q Hq).
Qed.

Lemma post_runs_fits db run :
  pool_error = None → fits other_error run →
  post_runs pool_error schema db run
  = match first_refusal constraints db (inserts_of run) with
    | None =>
        ({| committed := foldl apply_insert db (inserts_of run);
            transaction := None;
            issued := BEGIN :: inserts_of run ++ [COMMIT] |},
         Some {| http_status := 201;
                 body := Recorded "Run trace recorded successfully"
                                  (id run) |})
    | Some (sent, msg) =>
        ({| committed := db; transaction := None;
            issued := BEGIN :: sent ++ [ROLLBACK] |},
         Some {| http_status := 500; body := Failed msg |})
    end.
Proof.
  intros Hpool Hfits. rewrite ApiSpec.post_runs_outcome, Hpool.
  rewrite (first_refusal_ext schema constraints).
  2:{ intros t q Hq. apply (fits_constraints run); [done|].
      apply elem_of_cons in Hq as [->|Hq]; [by left|].
      apply elem_of_app in Hq as [Hq|Hq%list_elem_of_singleton].
      - by do 3 right.
      - subst q. right. by left. }
  rewrite ApiSpec.first_refusal_in_transaction
    by by apply ApiSpec.schema_accepts_control.
  destruct (first_refusal constraints db (inserts_of run))
    as [[sent msg]|]; [|done].
  unfold after_refusal.
  assert (Hrb : ∀ t, schema t ROLLBACK = None).
  { intros t. rewrite (fits_constraints run); [done | done |].
    do 2 right. by left. }
  by rewrite Hrb.
Qed.

(** X13. For a payload whose values fit the columns, on a connection
    that holds, the schema accepts the payload exactly when it is well
    formed: every required field of the run, of each step and of each
    candidate is there, the run id and the step ids are new to the store,
    and the step ids differ from each other. Then the answer is 201 and
    the rows of the payload are appended to the three tables, the steps
    and the candidates in payload order. Since the run is inserted before
    its steps and each step before its candidates, no foreign key can
    fail. Otherwise the answer is 500 with the store's message for the
    constraint that one of the inserts violates, and nothing is
    committed. *)
Theorem schema_accepts_well_formed_payloads db run :
  pool_error = None →
  fits other_error run →
  let out := post_runs pool_error schema db run in
  (payload_ok db run ↔ http_status <$> out.2 = Some 201)
  ∧ (payload_ok db run →
     out.2 = Some {| http_status := 201;
                     body := Recorded "Run trace recorded successfully"
                                      (id run) |}
     ∧ committed out.1
       = {| runs_table := runs_table db ++ [run_row run];
            steps_table :=
              steps_table db ++ (step_row run <$> listed_steps run);
            candidates_table :=
              candidates_table db
              ++ (step ← listed_steps run;
                  candidate_row step <$> listed_candidates step) |})
  ∧ (¬ payload_ok db run →
     committed out.1 = db
     ∧ ∃ v q, q ∈ inserts_of run
              ∧ out.2 = Some {| http_status := 500;
                                body := Failed (message v q) |}).
Proof.
  intros Hpool Hfits. simpl. rewrite post_runs_fits by done.
  rewrite payload_ok_iff_accepted.
  destruct (first_refusal constraints db (inserts_of run))
    as [[sent msg]|] eqn:E; cbn [fst snd committed].
  - split_and!; [done | done |]. intros _. split; [done|].
    destruct (refusal_message _ _ _ _ _ E) as (q & t' & Hq & Hmsg).
    unfold schema_refuses, no_other_error in Hmsg.
    destruct (constraint_violated t' q) as [v|]; [|done].
    injection Hmsg as <-. by exists v, q.
  - split_and!; [done | | done]. intros _. split; [done|].
    apply ApiSpec.ingested_rows.
Qed.

(** X14. There is no deduplication: once a payload was accepted, a second
    delivery of the same payload is never accepted, and the tables stay
    as the first delivery left them. When the values of the payload fit
    the columns and the connection holds, the second delivery is refused
    by the primary key of [runs] at its first insert, and the answer is
    500 with the store's message for that violation. *)
Theorem redelivery_is_refused db run :
  let first := post_runs pool_error schema db run in
  http_status <$> first.2 = Some 201 →
  let again := post_runs pool_error schema (committed first.1) run in
  committed again.1 = committed first.1
  ∧ http_status <$> again.2 ≠ Some 201
  ∧ (fits other_error run →
     again
     = ({| committed := committed first.1; transaction := None;
           issued := [BEGIN; InsertRun (run_row run); ROLLBACK] |},
        Some {| http_status := 500;
                body := Failed (message Duplicate
                                        (InsertRun (run_row run))) |})).
Proof.
  simpl. rewrite (ApiSpec.post_runs_outcome pool_error schema db run).
  destruct pool_error as [e|] eqn:Hpool; [done|].
  destruct (first_refusal schema db (BEGIN :: inserts_of run ++ [COMMIT]))
    as [[sent msg]|] eqn:E.
  { destruct (after_refusal_cases schema db sent msg) as (_ & _ & Hres).
    simpl in Hres.
    destruct (after_refusal schema db sent msg).2 as [res|]; [|done].
    by destruct Hres as [-> _]. }
  intros _. cbn [fst committed].
  set (db' := foldl apply_insert db (inserts_of run)).
  (* the run row was accepted, and is in the tables now *)
  cbn [first_refusal] in E.
  destruct (schema db BEGIN) eqn:Hbegin; [done|]. cbn [apply_insert] in E.
  unfold inserts_of in E at 1. cbn [app first_refusal] in E.
  destruct (schema db (InsertRun (run_row run))) eqn:Hrun; [done|].
  apply schema_accepted in Hrun as [_ Hrun].
  apply constraints_accept_run in Hrun as [Hok _].
  assert (Hdup : constraint_violated db' (InsertRun (run_row run))
                 = Some Duplicate).
  { unfold constraint_violated, has_run. unfold run_row_ok in Hok.
    apply or_false_ok in Hok. rewrite Hok.
    rewrite bool_decide_eq_true_2; [done|].
    subst db'. rewrite ApiSpec.ingested_rows. simpl.
    rewrite fmap_app. apply elem_of_app. right.
    by apply list_elem_of_singleton. }
  assert (Hrefused : ∃ sent msg,
            first_refusal schema db' (BEGIN :: inserts_of run ++ [COMMIT])
            = Some (sent, msg)).
  { cbn [first_refusal]. destruct (schema db' BEGIN); [eauto|].
    cbn [apply_insert]. unfold inserts_of at 1. cbn [app first_refusal].
    destruct (schema db' (InsertRun (run_row run))) eqn:Hagain; [eauto|].
    apply schema_accepted in Hagain as [_ Hagain]. congruence. }
  split_and!.
  - rewrite ApiSpec.post_runs_outcome.
    destruct Hrefused as (sent & msg & ->).
    by destruct (after_refusal_cases schema db' sent msg) as (-> & _).
  - rewrite ApiSpec.post_runs_outcome.
    destruct Hrefused as (sent & msg & ->).
    destruct (after_refusal_cases schema db' sent msg) as (_ & _ & Hres).
    simpl in Hres.
    destruct (after_refusal schema db' sent msg).2 as [res|]; [|done].
    by destruct Hres as [-> _].
  - intros Hfits. rewrite <- Hpool, post_runs_fits by done.
    unfold inserts_of at 1. cbn [first_refusal].
    unfold schema_refuses at 1, no_other_error at 1. by rewrite Hdup.
Qed.

End Schema.


(** ** Fetching a run *)

#[local] Instance step_index_asc_total : Total step_index_asc.
Proof.
  intros a b. unfold step_index_asc.
  destruct (s_step_index a), (s_step_index b); auto. lia.
Qed.

#[local] Instance step_index_asc_trans : Transitive step_index_asc.
Proof.
  intros a b c. unfold step_index_asc.
  destruct (s_step_index a), (s_step_index b), (s_step_index c);
    try done. lia.
Qed.

Lemma sql_eq_spec column value :
  sql_eq column value = true ↔ column = Some value.
Proof.
  unfold sql_eq. destruct column as [v|]; [|done].
  rewrite String.eqb_eq. split; congruence.
Qed.

Lemma fst_of_paired {A B} (g : A → B) (l : list A) :
  ((λ x, (x, g x)) <$> l).*1 = l.
Proof. induction l as [|x l IH]; [done|]. by rewrite !fmap_cons, IH. Qed.

Lemma elem_of_filter_eq {A} (column : A → option string) (k : string)
    (l : list A) (x : A) :
  x ∈ List.filter (λ y, sql_eq (column y) k) l ↔ x ∈ l ∧ column x = Some k.
Proof.
  rewrite list_elem_of_In, List.filter_In, <- list_elem_of_In.
  by rewrite sql_eq_spec.
Qed.

Section Fetch.

Context (raises : FetchQuery → option string).
Context (spelling : string → string).
Context (scan_runs : list RunRow → list RunRow).
Context (scan_steps : list StepRow → list StepRow).
Context (scan_candidates : option string → list CandidateRow
                           → list CandidateRow).

Local Abbreviation get_run :=
  (get_run raises spelling scan_runs scan_steps scan_candidates).

(** X16. [GET /runs/:id] sends the query for the run first and answers
    500 with the store's message when the store raises on it, as it does
    for an id that is not the text of a uuid. Otherwise it answers 404
    with "Run not found" exactly when no run row has the id; and when a
    run row has it, the answer is 500 with the store's message if one of
    the later queries raises, and else 200 with a run row of that id, the
    step rows of that run and no others, ordered by step index, and with
    each step the candidate rows that refer to it, in the order the store
    hands them out. *)
Theorem fetch_finds_the_run db id :
  (∀ l, scan_runs l ≡ₚ l) →
  (∀ l, scan_steps l ≡ₚ l) →
  (∀ k l, scan_candidates k l ≡ₚ l) →
  let res := get_run db id in
  match raises (SelectRun id) with
  | Some msg => res = {| get_status := 500; get_body := FetchFailed msg |}
  | None =>
      (res = {| get_status := 404; get_body := FetchFailed "Run not found" |}
       ↔ Forall (λ r, r_id r ≠ Some (spelling id)) (runs_table db))
      ∧ match get_body res with
        | FetchFailed error =>
            (get_status res = 404 ∧ error = "Run not found")
            ∨ (get_status res = 500
               ∧ ∃ q, raises q = Some error ∧ q ≠ SelectRun id)
        | RunFound run steps =>
            get_status res = 200
            ∧ raises (SelectSteps id) = None
            ∧ (steps = []
               ∨ raises (SelectCandidates (s_id <$> steps.*1)) = None)
            ∧ run ∈ runs_table db ∧ r_id run = Some (spelling id)
            ∧ (∀ s, s ∈ steps.*1
                    ↔ s ∈ steps_table db ∧ s_run_id s = Some (spelling id))
            ∧ steps.*1
              ≡ₚ List.filter (λ s, sql_eq (s_run_id s) (spelling id))
                             (steps_table db)
            ∧ StronglySorted step_index_asc steps.*1
            ∧ Forall (λ '(step, cands),
                 ∀ c, c ∈ cands
                      ↔ c ∈ candidates_table db ∧ is_Some (s_id step)
                        ∧ c_step_id c = s_id step) steps
        end
  end.
Proof.
  intros Hruns Hsteps Hcands res. subst res. unfold API.get_run.
  destruct (raises (SelectRun id)) as [msg|] eqn:Hq1; [done|].
  destruct (scan_runs _) as [|run rest] eqn:E.
  { split; [|by left]. split; [|done]. intros _.
    apply Forall_forall. intros r Hr Hid.
    assert (Hin : r ∈ scan_runs
                    (List.filter (λ r, sql_eq (r_id r) (spelling id))
                                 (runs_table db)))
      by (rewrite Hruns; by apply elem_of_filter_eq).
    rewrite E in Hin. by apply elem_of_nil in Hin. }
  assert (Hrun : run ∈ runs_table db ∧ r_id run = Some (spelling id)).
  { apply (elem_of_filter_eq r_id). rewrite <- Hruns, E. by left. }
  assert (Hnot404 : ¬ Forall (λ r, r_id r ≠ Some (spelling id))
                             (runs_table db)).
  { rewrite Forall_forall. intros Hall. destruct Hrun as [Hin Hid].
    by apply (Hall run Hin). }
  destruct (raises (SelectSteps id)) as [msg|] eqn:Hq2.
  { split; [by split|]. right. split; [done|]. by exists (SelectSteps id). }
  destruct (candidate_queries_reject _ _) as [msg|] eqn:Hq3.
  { split; [by split|]. right. split; [done|].
    unfold candidate_queries_reject in Hq3.
    destruct (merge_sort _ _); [done|]. eexists. by split. }
  split; [by split|]. cbn [get_body get_status]. rewrite fst_of_paired.
  destruct Hrun as [Hin Hid]. split_and!; try done.
  - unfold candidate_queries_reject in Hq3.
    destruct (merge_sort _ _); [by left|by right].
  - intros s. rewrite merge_sort_Permutation. rewrite Hsteps.
    apply elem_of_filter_eq.
  - rewrite merge_sort_Permutation. apply Hsteps.
  - apply (StronglySorted_merge_sort _).
  - apply Forall_fmap, Forall_forall. intros step _ c. simpl.
    unfold candidates_of. rewrite Hcands.
    destruct (s_id step) as [k|].
    + rewrite elem_of_filter_eq. split.
      * intros [Hc Hk]. by split_and!.
      * by intros (Hc & _ & Hk).
    + split; [by intros ?%elem_of_nil|]. by intros (_ & [? ?] & _).
Qed.

End Fetch.

(** ** Ingesting, then fetching *)






Section RoundTrip.

Context (message : Violation → Stmt → string).
Context (other_error : Db → Stmt → option string).
Context (raises : FetchQuery → option string).
Context (spelling : string → string).
Context (scan_runs : list RunRow → list RunRow).
Context (scan_steps : list StepRow → list StepRow).
Context (scan_candidates : option string → list CandidateRow
                           → list CandidateRow).


End RoundTrip.

(** ** The analytical query, again *)

Section Query.

Context (query_error : option Threshold → option string).
Context (float8_in : Json → JsNum).

(** X20. Of the body of [POST /runs/query] only [minEliminationRate] is
    read: [pipelineName], [status], [stepName], [startDate] and [endDate]
    do not narrow the result. *)
Theorem query_reads_threshold_only db (f1 f2 : QueryFilter) :
  minEliminationRate f1 = minEliminationRate f2 →
  post_runs_query query_error float8_in db f1
  = post_runs_query query_error float8_in db f2.
Proof. intros Heq. unfold post_runs_query. by rewrite Heq. Qed.

Lemma filter_sublist {A} (f g : A → bool) (l : list A) :
  (∀ x, f x = true → g x = true) →
  sublist (List.filter f l) (List.filter g l).
Proof.
  intros Hfg. induction l as [|x l IH]; simpl; [done|].
  destruct (f x) eqn:Hf.
  - rewrite (Hfg x Hf). by constructor.
  - destruct (g x); [by constructor|done].
Qed.

(** X21. Raising the threshold can only remove rows: the steps that match
    a threshold are, in the same order, among the steps that match any
    lower one; and the answer never has more than 100 rows when a
    threshold is given, nor more than 50 when none is. *)
Theorem raising_threshold_narrows db (t1 t2 : JsNum) (filter : QueryFilter) :
  float8_le t1 t2 = true →
  sublist (matching_rows db (Some t2)) (matching_rows db (Some t1))
  ∧ match query_data (post_runs_query query_error float8_in db filter) with
    | StepRows rows => (length rows ≤ 100)%nat
    | RunRows rows => (length rows ≤ 50)%nat
    | QueryFailed _ => True
    end.
Proof.
  intros Hle. split.
  - unfold matching_rows. induction (runs_table db) as [|r l IH]; [done|].
    rewrite !bind_cons. apply sublist_app; [|done].
    apply bind_sublist, filter_sublist. intros s.
    rewrite !andb_true_iff, !ApiSpec.where_clause_spec.
    intros [Hj (i & o & x & Hi & Ho & [= <-] & Hpos & Ht2)]. split; [done|].
    exists i, o, t1. split_and!; try done.
    by eapply ApiSpec.float8_le_trans.
  - unfold post_runs_query.
    destruct (query_error _); [done|].
    destruct (minEliminationRate filter); simpl; rewrite length_take; lia.
Qed.

End Query.

(** ** Instances *)

Lemma empty_db_consistent : db_consistent empty_db.
Proof. unfold db_consistent. simpl. split_and!; constructor. Qed.


Lemma one_run_fits : fits no_other_error (one_run one_candidate).
Proof. done. Qed.

Lemma ingestion_keeps_schema_constraints_witness :
  db_consistent empty_db
  ∧ db_consistent
      (committed (post_runs None (schema_refuses plain_message no_other_error)
                            empty_db (one_run one_candidate)).1).
Proof.
  split; [exact empty_db_consistent|].
  exact (ingestion_keeps_schema_constraints None plain_message no_other_error
           empty_db (one_run one_candidate) empty_db_consistent).
Defined.

Lemma schema_accepts_well_formed_payloads_witness :
  @None string = None
  ∧ fits no_other_error (one_run one_candidate)
  ∧ (payload_ok empty_db (one_run one_candidate)
     ↔ http_status
         <$> (post_runs None (schema_refuses plain_message no_other_error)
                        empty_db (one_run one_candidate)).2
       = Some 201).
Proof.
  split_and!; [done | exact one_run_fits |].
  exact (proj1 (schema_accepts_well_formed_payloads None plain_message
                  no_other_error empty_db (one_run one_candidate)
                  eq_refl one_run_fits)).
Defined.

Lemma redelivery_is_refused_witness :
  http_status
    <$> (post_runs None (schema_refuses plain_message no_other_error)
                   empty_db (one_run one_candidate)).2 = Some 201
  ∧ committed
      (post_runs None (schema_refuses plain_message no_other_error)
         (committed
            (post_runs None (schema_refuses plain_message no_other_error)
                       empty_db (one_run one_candidate)).1)
         (one_run one_candidate)).1
    = committed
        (post_runs None (schema_refuses plain_message no_other_error)
                   empty_db (one_run one_candidate)).1.
Proof.
  split; [reflexivity|].
  exact (proj1 (redelivery_is_refused None plain_message no_other_error
                  empty_db (one_run one_candidate) eq_refl)).
Defined.

Lemma query_reads_threshold_only_witness :
  minEliminationRate (with_threshold (Some (Number (decimal 9 10))))
  = minEliminationRate
      {| q_pipelineName := Some "no_such_pipeline"; q_status := Some "failed";
         minEliminationRate := Some (Number (decimal 9 10));
         q_stepName := None; startDate := None; endDate := None |}
  ∧ post_runs_query answers_numbers reads_no_text scenario_db
                    (with_threshold (Some (Number (decimal 9 10))))
    = post_runs_query answers_numbers reads_no_text scenario_db
        {| q_pipelineName := Some "no_such_pipeline";
           q_status := Some "failed";
           minEliminationRate := Some (Number (decimal 9 10));
           q_stepName := None; startDate := None; endDate := None |}.
Proof.
  split; [reflexivity|].
  apply (query_reads_threshold_only answers_numbers reads_no_text
           scenario_db).
  reflexivity.
Defined.

Lemma raising_threshold_narrows_witness :
  float8_le (decimal 1 2) (decimal 9 10) = true
  ∧ sublist (matching_rows scenario_db (Some (decimal 9 10)))
            (matching_rows scenario_db (Some (decimal 1 2)))
  ∧ match query_data
            (post_runs_query answers_numbers reads_no_text scenario_db
                             (with_threshold None)) with
    | StepRows rows => (length rows ≤ 100)%nat
    | RunRows rows => (length rows ≤ 50)%nat
    | QueryFailed _ => True
    end.
Proof.
  assert (H : float8_le (decimal 1 2) (decimal 9 10) = true)
    by by vm_compute.
  split; [exact H|].
  exact (raising_threshold_narrows answers_numbers reads_no_text scenario_db
           (decimal 1 2) (decimal 9 10) (with_threshold None) H).
Defined.

Lemma fetch_finds_the_run_witness :
  (∀ l : list StepRow, in_order l ≡ₚ l)
  ∧ get_status (get_run reads_every_id as_spelled in_order in_order
                        (λ _, in_order) ten_to_nine_db run_1) = 200.
Proof.
  split; [done|].
  exact (proj1 (proj2 (fetch_finds_the_run reads_every_id as_spelled
                         in_order in_order (λ _, in_order) ten_to_nine_db
                         run_1 (λ _, reflexivity _) (λ _, reflexivity _)
                         (λ _ _, reflexivity _)))).
Defined.


(** Fetching the run of the scenario: its five steps by step index, none
    with candidates. *)
Example fetch_scenario :
  get_run reads_every_id as_spelled in_order in_order (λ _, in_order)
          scenario_db run_1
  = {| get_status := 200;
       get_body :=
         RunFound (scenario_run run_1 1000)
                  ((λ s, (s, [])) <$> steps_table scenario_db) |}.
Proof. reflexivity. Qed.

(** An id that no run has. *)
Example fetch_unknown_run :
  get_run reads_every_id as_spelled in_order in_order (λ _, in_order)
          scenario_db "6f1b2c3d-0000-4000-8000-00000000ffff"
  = {| get_status := 404; get_body := FetchFailed "Run not found" |}.
Proof. reflexivity. Qed.

(** An id that the store does not read as a uuid. *)
Example fetch_with_unreadable_id :
  get_run reads_no_id as_spelled in_order in_order (λ _, in_order)
          scenario_db "latest"
  = {| get_status := 500;
       get_body :=
         FetchFailed "invalid input syntax for type uuid: latest" |}.
Proof. reflexivity. Qed.

End ApiMore.
